(** * drissy-browser: a scraping / search proxy

    Shallow embedding of [src/server.js] and [src/browser-manager.js]
    and the properties of the excerpt locator, the search cache, the
    throttle gate, the batch orchestrator and the browser session pool.

    Conventions of the embedding.
    - A JavaScript string is the list of its UTF-16 code units
      ([jsstring]); [length], [indexOf], [slice], [startsWith] and
      [trim] act on code units, as in ECMAScript.
    - JavaScript numbers that the code uses as indices, lengths, clock
      readings and character counts are integers ([Z]).
    - [null] / [undefined] results are [None].
    - Everything the process obtains from the outside (the reply of an
      HTTP fetch, the element list cheerio selects, a reading of
      [Date.now()], the outcome of a Playwright call) is an argument of
      the function that consumes it. *)

From Stdlib Require Import ZArith NArith Lia.
From Stdlib Require Import Strings.Ascii Strings.String.
From stdpp Require Import base option list gmap.

Local Open Scope Z_scope.

(* ===================================================================== *)
(** * Part I: definitions                                                 *)
(* ===================================================================== *)

(** ** JavaScript strings *)

Module JsString.

(** A string is its sequence of UTF-16 code units. *)
Abbreviation jsstring := (list N).

(** String literals of the source, written as Rocq strings. *)
Definition js (s : string) : jsstring :=
  N_of_ascii <$> list_ascii_of_string s.

(** [s.length] *)
Definition len (s : jsstring) : Z := Z.of_nat (length s).

(** [s.startsWith(p)] *)
Fixpoint startsWith (s p : jsstring) : bool :=
  match p, s with
  | [], _ => true
  | _ :: _, [] => false
  | c :: p', d :: s' => (c =? d)%N && startsWith s' p'
  end.

(** [s.indexOf(p)], scanning from position [k] of the original
    string: the first position at which [p] starts, or [-1]. *)
Fixpoint indexOf_from (k : Z) (s p : jsstring) : Z :=
  if startsWith s p then k
  else match s with
       | [] => -1
       | _ :: s' => indexOf_from (k + 1) s' p
       end.

Definition indexOf (s p : jsstring) : Z := indexOf_from 0 s p.

(** [s.includes(p)] *)
Definition includes (s p : jsstring) : bool :=
  negb (indexOf s p =? -1).

(** [s.slice(start, end)] with ECMAScript's treatment of negative and
    out-of-range arguments. *)
Definition slice (s : jsstring) (start end_ : Z) : jsstring :=
  let from := if start <? 0 then Z.max (len s + start) 0
              else Z.min start (len s) in
  let to := if end_ <? 0 then Z.max (len s + end_) 0
            else Z.min end_ (len s) in
  take (Z.to_nat (to - from)) (drop (Z.to_nat from) s).

(** ECMAScript [WhiteSpace] and [LineTerminator] code units, the ones
    [trim] strips. *)
Definition isSpace (c : N) : bool :=
  ((c =? 9) || (c =? 10) || (c =? 11) || (c =? 12) || (c =? 13)
   || (c =? 32) || (c =? 160) || (c =? 5760)
   || ((8192 <=? c) && (c <=? 8202))
   || (c =? 8232) || (c =? 8233) || (c =? 8239) || (c =? 8287)
   || (c =? 12288) || (c =? 65279))%N.

Fixpoint trimStart (s : jsstring) : jsstring :=
  match s with
  | c :: s' => if isSpace c then trimStart s' else s
  | [] => []
  end.

Definition trimEnd (s : jsstring) : jsstring :=
  reverse (trimStart (reverse s)).

(** [s.trim()] *)
Definition trim (s : jsstring) : jsstring := trimEnd (trimStart s).

(** [toLowerCase] restricted to the ASCII letters; it agrees with
    ECMAScript's on every string whose code units are below 128.  The
    server definitions below take the case mapping as a parameter;
    this one instantiates it on concrete ASCII inputs. *)
Definition asciiLower (s : jsstring) : jsstring :=
  (fun c => if (65 <=? c) && (c <=? 90) then c + 32 else c)%N <$> s.

(** JavaScript truthiness of a string: non-empty. *)
Definition truthy (s : jsstring) : bool :=
  match s with [] => false | _ => true end.

(** [p] occurs in [s] at position [i]. *)
Definition occurs_at (s p : jsstring) (i : nat) : Prop :=
  ∃ pre post, s = pre ++ p ++ post ∧ length pre = i.

(** [i] is the position of the first occurrence of [p] in [s]. *)
Definition first_occurrence (s p : jsstring) (i : nat) : Prop :=
  occurs_at s p i ∧ ∀ j, (j < i)%nat → ¬ occurs_at s p j.

(** [p] occurs nowhere in [s]. *)
Definition absent (s p : jsstring) : Prop :=
  ∀ i, ¬ occurs_at s p i.

End JsString.
Import JsString.

(** ** The excerpt locator ([server.js], API 2) *)

Module Extract.

(** The two shapes [extractFromText] returns. *)
Inductive ExtractionResult :=
| Found (title url extractedText : jsstring)
| NotFound (title url fullText : jsstring).

(** The [found] field. *)
Definition found (r : ExtractionResult) : bool :=
  match r with Found _ _ _ => true | NotFound _ _ _ => false end.

(** [extractFromText(body, excerpt, charsBefore, charsAfter, title, pageUrl)] *)
Definition extractFromText (body excerpt : jsstring)
    (charsBefore charsAfter : Z) (title pageUrl : jsstring)
    : option ExtractionResult :=
  if negb (truthy body) || (len body =? 0) then None
  else
    let index := indexOf body excerpt in
    if index =? -1 then
      let short := slice excerpt 0 40 in
      let index := indexOf body short in
      if index =? -1 then
        Some (NotFound title pageUrl (slice body 0 5000))
      else
        let start := Z.max 0 (index - charsBefore) in
        let end_ := Z.min (len body) (index + len short + charsAfter) in
        Some (Found title pageUrl (slice body start end_))
    else
      let start := Z.max 0 (index - charsBefore) in
      let end_ := Z.min (len body) (index + len excerpt + charsAfter) in
      Some (Found title pageUrl (slice body start end_)).

End Extract.
Import Extract.


(** ** The browser session pool ([browser-manager.js]) *)

Module Pool.

(** [{ context, page }]: the handles are the identifiers Playwright
    gave the context and the page. *)
Record Session := mkSession { context : nat; page : nat }.

(** Calls that Playwright carried out, oldest first. *)
Inductive Call :=
| Launch (browser : nat)
| NewContext (ctx : nat)
| AddInitScript (ctx : nat)
| NewPage (ctx pg : nat)
| Route (ctx : nat)
| Goto (pg : nat) (url : jsstring)
| Evaluate (pg : nat)
| ClosePage (pg : nat)
| CloseContext (ctx : nat).

(** The [BrowserManager] object together with the Playwright side it
    drives: [browser] and [sessions] are the two fields of the class;
    the counters hand out fresh handles; [calls] records what
    Playwright was made to do. *)
Record Manager := mkManager {
  browser : option nat;
  sessions : gmap jsstring Session;
  launches : nat;
  contexts : nat;
  pages : nat;
  calls : list Call
}.

(** [new BrowserManager()] *)
Definition create : Manager :=
  mkManager None ∅ 0 0 0 [].

(** An [async] function either returns or rejects. *)
Inductive Outcome (A : Type) :=
| Returns (a : A)
| Throws.
Arguments Returns {A} a.
Arguments Throws {A}.

(** Which awaited Playwright call of [getSession] rejects, if any. *)
Inductive Fault :=
| NoFault
| NewContextFails
| AddInitScriptFails
| NewPageFails
| RouteFails.

#[export] Instance Fault_eq_dec : EqDecision Fault.
Proof. solve_decision. Defined.

Definition did (c : Call) (m : Manager) : Manager :=
  mkManager (browser m) (sessions m) (launches m) (contexts m) (pages m)
            (calls m ++ [c]).

(** [browser.newContext(...)] *)
Definition newContext (m : Manager) : nat * Manager :=
  let ctx := contexts m in
  (ctx, did (NewContext ctx)
          (mkManager (browser m) (sessions m) (launches m) (S ctx)
                     (pages m) (calls m))).

(** [context.newPage()] *)
Definition newPage (ctx : nat) (m : Manager) : nat * Manager :=
  let pg := pages m in
  (pg, did (NewPage ctx pg)
         (mkManager (browser m) (sessions m) (launches m) (contexts m)
                    (S pg) (calls m))).

(** [this.sessions.set(userId, session)] *)
Definition setSession (userId : jsstring) (s : Session) (m : Manager)
    : Manager :=
  mkManager (browser m) (<[userId := s]> (sessions m)) (launches m)
            (contexts m) (pages m) (calls m).

(** [this.sessions.delete(userId)] *)
Definition deleteSession (userId : jsstring) (m : Manager) : Manager :=
  mkManager (browser m) (delete userId (sessions m)) (launches m)
            (contexts m) (pages m) (calls m).

(** [start()]; [ok] tells whether [chromium.launch] resolves. *)
Definition start (ok : bool) (m : Manager) : Outcome unit * Manager :=
  if ok then
    (Returns (),
     did (Launch (launches m))
       (mkManager (Some (launches m)) (sessions m) (S (launches m))
                  (contexts m) (pages m) (calls m)))
  else (Throws, m).

(** [getSession(userId)] *)
Definition getSession (userId : jsstring) (fault : Fault) (m : Manager)
    : Outcome Session * Manager :=
  match sessions m !! userId with
  | Some s => (Returns s, m)
  | None =>
    match browser m with
    | None => (Throws, m)
    | Some _ =>
      if decide (fault = NewContextFails) then (Throws, m) else
      let '(ctx, m) := newContext m in
      if decide (fault = AddInitScriptFails) then (Throws, m) else
      let m := did (AddInitScript ctx) m in
      if decide (fault = NewPageFails) then (Throws, m) else
      let '(pg, m) := newPage ctx m in
      if decide (fault = RouteFails) then (Throws, m) else
      let m := did (Route ctx) m in
      let session := mkSession ctx pg in
      (Returns session, setSession userId session m)
    end
  end.

(** [destroy(userId)]; [closes] tells whether [context.close()]
    resolves. *)
Definition destroy (userId : jsstring) (closes : bool) (m : Manager)
    : Outcome unit * Manager :=
  match sessions m !! userId with
  | Some s =>
    if closes then
      (Returns (), deleteSession userId (did (CloseContext (context s)) m))
    else (Throws, m)
  | None => (Returns (), m)
  end.

End Pool.
Import Pool.

(** ** The extraction engine ([server.js], API 2) *)

Module Engine.

(** What cheerio selects from a fetched page once the non-content
    elements are removed: the text of [title], of the first
    [article, main, [role="main"]] element (empty when there is none)
    and of [body]. *)
Record Document := mkDocument {
  titleText : jsstring;
  landmarkText : jsstring;
  bodyText : jsstring
}.

(** The reply to the fast path's [fetch]. *)
Inductive HttpReply :=
| FetchRejected
| Response (ok : bool) (text : option Document).

(** Line 205. *)
Definition fastTitle (doc : Document) : jsstring := trim (titleText doc).

(** Line 206. *)
Definition fastBody (doc : Document) : jsstring :=
  trim (if truthy (landmarkText doc) then landmarkText doc
        else bodyText doc).

(** [extractFast(url, excerpt, charsBefore, charsAfter)]; [text = None]
    is a body that cannot be read, on which [httpResp.text()]
    rejects. *)
Definition extractFast (url excerpt : jsstring) (charsBefore charsAfter : Z)
    (reply : HttpReply) : Outcome (option ExtractionResult) :=
  match reply with
  | FetchRejected => Returns None
  | Response false _ => Returns None
  | Response true None => Throws
  | Response true (Some doc) =>
    let title := fastTitle doc in
    let body := fastBody doc in
    let result :=
      extractFromText body excerpt charsBefore charsAfter title url in
    Returns (match result with
             | Some r => if found r then Some r else None
             | None => None
             end)
  end.

(** What the rendered page gives the browser path. *)
Inductive PageReply :=
| GotoRejected
| EvaluateRejected
| Rendered (body title url : jsstring).

(** What Playwright does during the browser path: whether
    [getSession] meets a fault, whether [context.newPage()] resolves,
    and what the page yields. *)
Record BrowserRun := mkBrowserRun {
  sessionFault : Fault;
  pageOpens : bool;
  pageReply : PageReply
}.

(** Lines 218-237 of [extractOneUrl]: the browser fallback. *)
Definition browserPath (url excerpt : jsstring) (charsBefore charsAfter : Z)
    (userId : jsstring) (br : BrowserRun) (m : Manager)
    : Outcome ExtractionResult * Manager :=
  match getSession userId (sessionFault br) m with
  | (Throws, m) => (Throws, m)
  | (Returns s, m) =>
    if negb (pageOpens br) then (Throws, m) else
    let '(pg, m) := newPage (context s) m in
    match pageReply br with
    | GotoRejected => (Throws, did (ClosePage pg) m)
    | EvaluateRejected =>
        (Throws, did (ClosePage pg) (did (Goto pg url) m))
    | Rendered body title pageUrl =>
        let m := did (Evaluate pg) (did (Goto pg url) m) in
        let result :=
          match extractFromText body excerpt charsBefore charsAfter
                                title pageUrl with
          | Some r => r
          | None => NotFound title pageUrl []
          end in
        (Returns result, did (ClosePage pg) m)
    end
  end.

(** [extractOneUrl(url, excerpt, charsBefore, charsAfter, userId)] *)
Definition extractOneUrl (url excerpt : jsstring) (charsBefore charsAfter : Z)
    (userId : jsstring) (reply : HttpReply) (br : BrowserRun) (m : Manager)
    : Outcome ExtractionResult * Manager :=
  match extractFast url excerpt charsBefore charsAfter reply with
  | Throws => (Throws, m)
  | Returns (Some fast) => (Returns fast, m)
  | Returns None =>
      browserPath url excerpt charsBefore charsAfter userId br m
  end.

(** One element of [items] in the body of [/extract-batch]. *)
Record Item := mkItem {
  url : jsstring;
  excerpt : jsstring;
  charsBefore : option Z;
  charsAfter : option Z
}.

(** [a ?? b] *)
Definition nullish {A} (a : option A) (b : A) : A := default b a.

(** [xs.filter(Boolean)] on values that are objects or [null]. *)
Definition filterBoolean {A} (xs : list (option A)) : list A :=
  omap id xs.

(** The handler of [POST /extract-batch]: [items] paired with the
    reply each item's fetch receives; [charsBefore] and [charsAfter]
    default to 500 and 1000. *)
Definition extractBatch (items : list (Item * HttpReply))
    (charsBefore charsAfter : option Z) : list ExtractionResult :=
  let charsBefore := nullish charsBefore 500 in
  let charsAfter := nullish charsAfter 1000 in
  let settled :=
    (fun '(item, reply) =>
       extractFast (url item) (excerpt item)
                   (nullish (Engine.charsBefore item) charsBefore)
                   (nullish (Engine.charsAfter item) charsAfter)
                   reply) <$> items in
  filterBoolean
    ((fun r => match r with
               | Returns (Some v) => Some v
               | _ => None
               end) <$> settled).

(** Every way the program uses the session pool: the three methods of
    [BrowserManager], and [extractOneUrl], the only caller of
    [getSession]. *)
Inductive Op :=
| OpStart (ok : bool)
| OpGetSession (userId : jsstring) (fault : Fault)
| OpDestroy (userId : jsstring) (closes : bool)
| OpExtract (url excerpt : jsstring) (charsBefore charsAfter : Z)
            (userId : jsstring) (reply : HttpReply) (br : BrowserRun).

Definition apply (op : Op) (m : Manager) : Manager :=
  match op with
  | OpStart ok => (start ok m).2
  | OpGetSession u f => (getSession u f m).2
  | OpDestroy u c => (destroy u c m).2
  | OpExtract url excerpt cb ca u reply br =>
      (extractOneUrl url excerpt cb ca u reply br m).2
  end.

(** A sequence of uses, each run to completion before the next. *)
Definition run (ops : list Op) (m : Manager) : Manager :=
  foldl (fun m op => apply op m) m ops.

(** The operation is [destroy(userId)]. *)
Definition destroys (userId : jsstring) (op : Op) : Prop :=
  ∃ closes, op = OpDestroy userId closes.

End Engine.
Import Engine.

(** ** Search cache, throttle and the two search backends ([server.js]) *)

Module Search.

(** [{ title, url, snippet }] *)
Record SearchResult := mkResult {
  title : jsstring;
  url : jsstring;
  snippet : jsstring
}.

(** [{ results, ts }] *)
Record CacheEntry := mkEntry {
  results : list SearchResult;
  ts : Z
}.

(** The module-level state: [searchCache] and [lastSearchTs]. *)
Record Server := mkServer {
  searchCache : gmap jsstring CacheEntry;
  lastSearchTs : Z
}.

(** The state when the module is loaded. *)
Definition boot : Server := mkServer ∅ 0.

Definition CACHE_TTL : Z := 10 * 60000.
Definition MIN_GAP_MS : Z := 1500.
Definition GOOGLE_CACHE_TTL : Z := 30 * 60000.

(** What a handler sends. *)
Inductive Reply :=
| Results (results : list SearchResult) (cached : bool)
| Error (status : Z) (message : jsstring).

(** One [.result] block as the handler reads it: the [href] attribute
    and the text of its first [a.result__a], and the text of its first
    [.result__snippet] ([None] where the element or the attribute is
    missing). *)
Record ResultBlock := mkBlock {
  href : option jsstring;
  anchorText : option jsstring;
  snippetText : option jsstring
}.

(** cheerio's [.text()] of a possibly empty selection. *)
Definition text (t : option jsstring) : jsstring := default [] t.

(** [x || ''] *)
Definition orEmpty (x : option jsstring) : jsstring :=
  match x with
  | Some s => if truthy s then s else []
  | None => []
  end.

(** The body of the [.each] callback together with the loop that
    cheerio runs: [results] and [seen] are the two accumulators, and
    returning [false] ends the loop. *)
Fixpoint eachResult (blocks : list ResultBlock)
    (results : list SearchResult) (seen : gset jsstring)
    : list SearchResult :=
  match blocks with
  | [] => results
  | el :: rest =>
    if (10 <=? length results)%nat then results
    else
      let href := orEmpty (href el) in
      if negb (startsWith href (js "http"))
         || includes href (js "duckduckgo.com/y.js")
         || bool_decide (href ∈ seen)
      then eachResult rest results seen
      else
        let seen := {[ href ]} ∪ seen in
        let title := trim (text (anchorText el)) in
        if negb (truthy title) then eachResult rest results seen
        else
          let snippet := trim (text (snippetText el)) in
          eachResult rest (results ++ [mkResult title href snippet]) seen
  end.

(** Lines 73-86: the result list parsed from the upstream page. *)
Definition parseResults (blocks : list ResultBlock) : list SearchResult :=
  eachResult blocks [] ∅.

(** What every result of the scraped backend satisfies, [B] telling
    which blocks it may come from. *)
Definition accepted (B : ResultBlock → Prop) (r : SearchResult) : Prop :=
  startsWith (url r) (js "http") = true
  ∧ includes (url r) (js "duckduckgo.com/y.js") = false
  ∧ title r ≠ []
  ∧ ∃ el, B el
      ∧ href el = Some (url r)
      ∧ title r = trim (text (anchorText el))
      ∧ snippet r = trim (text (snippetText el))
      ∧ (snippetText el = None → snippet r = []).

(** Line 55. *)
Definition throttleWait (now : Z) (s : Server) : Z :=
  Z.max 0 (MIN_GAP_MS - (now - lastSearchTs s)).

(** Line 57. *)
Definition stamp (now : Z) (s : Server) : Server :=
  mkServer (searchCache s) now.

(** [searchCache.set(key, entry)] *)
Definition store (key : jsstring) (e : CacheEntry) (s : Server) : Server :=
  mkServer (<[key := e]> (searchCache s)) (lastSearchTs s).

(** Lines 92-97: the sweep. *)
Definition evict (now : Z) (s : Server) : Server :=
  if (500 <? size (searchCache s))%nat then
    let cutoff := now - CACHE_TTL in
    mkServer (filter (fun kv => ¬ (ts kv.2 < cutoff)) (searchCache s))
             (lastSearchTs s)
  else s.

(** A fresh entry under [key], as both handlers look it up. *)
Definition fresh (key : jsstring) (now ttl : Z) (s : Server)
    : option CacheEntry :=
  match searchCache s !! key with
  | Some cached => if now - ts cached <? ttl then Some cached else None
  | None => None
  end.

(** The upstream page of the scraped backend: the fetch or the read
    of its body rejects with a message, or cheerio selects these
    blocks from it. *)
Inductive DdgUpstream :=
| DdgRejected (message : jsstring)
| DdgPage (blocks : list ResultBlock).

(** One organic result of the SERP provider. *)
Record Organic := mkOrganic {
  o_title : jsstring;
  o_url : jsstring;
  o_desc : option jsstring
}.

(** The provider's JSON: [data.message] and
    [data.results?.[0]?.content?.results?.organic]. *)
Record SerpData := mkSerpData {
  message : option jsstring;
  organic : option (list Organic)
}.

(** The provider's reply: the fetch or the JSON decoding rejects, or
    a status with its decoded body. *)
Inductive SerpUpstream :=
| SerpRejected (message : jsstring)
| SerpResponse (status : Z) (data : SerpData).

(** [resp.ok] *)
Definition ok (status : Z) : bool := (200 <=? status) && (status <=? 299).

Section CaseMap.

(** [String.prototype.toLowerCase] *)
Variable toLowerCase : jsstring → jsstring.

(** Line 45. *)
Definition ddgCacheKey (query : jsstring) : jsstring :=
  toLowerCase (trim query).

(** Line 114. *)
Definition googleCacheKey (query : jsstring) : jsstring :=
  js "g:" ++ toLowerCase (trim query).

(** Lines 70-99 of [POST /search/duckduckgo]: what runs once the
    upstream fetch has settled. *)
Definition ddgFinish (query : jsstring) (up : DdgUpstream)
    (storedAt sweptAt : Z) (s : Server) : Reply * Server :=
  match up with
  | DdgRejected msg => (Error 500 msg, s)
  | DdgPage blocks =>
    let results := parseResults blocks in
    let s := store (ddgCacheKey query) (mkEntry results storedAt) s in
    let s := evict sweptAt s in
    (Results results false, s)
  end.

(** [POST /search/duckduckgo], run without any other handler in
    between: [lookedAt], [now], [sentAt], [storedAt] and [sweptAt]
    are the successive readings of [Date.now()]. *)
Definition searchDuckduckgo (query : jsstring)
    (lookedAt now sentAt storedAt sweptAt : Z) (up : DdgUpstream)
    (s : Server) : Reply * Server :=
  match fresh (ddgCacheKey query) lookedAt CACHE_TTL s with
  | Some cached => (Results (results cached) true, s)
  | None =>
    let wait := throttleWait now s in
    let s := stamp sentAt s in
    ddgFinish query up storedAt sweptAt s
  end.

(** [POST /search/google] *)
Definition searchGoogle (query : jsstring) (lookedAt storedAt : Z)
    (up : SerpUpstream) (s : Server) : Reply * Server :=
  let cacheKey := googleCacheKey query in
  match fresh cacheKey lookedAt GOOGLE_CACHE_TTL s with
  | Some cached => (Results (results cached) true, s)
  | None =>
    match up with
    | SerpRejected msg => (Error 500 msg, s)
    | SerpResponse status data =>
      if negb (ok status) then
        (Error status
           (match message data with
            | Some msg => if truthy msg then msg
                          else js "Oxylabs SERP error"
            | None => js "Oxylabs SERP error"
            end), s)
      else
        let organic := default [] (organic data) in
        let results :=
          (fun r => mkResult (o_title r) (o_url r) (orEmpty (o_desc r)))
            <$> take 10 organic in
        let s := if (0 <? length results)%nat
                 then store cacheKey (mkEntry results storedAt) s
                 else s in
        (Results results false, s)
    end
  end.

End CaseMap.

End Search.
Import Search.

(** ** Interleaved runs of [POST /search/duckduckgo]

    Node runs one handler until it reaches an [await]; the scraped
    backend's handler has two: the throttle's timer (line 56) and the
    upstream fetch (lines 59-70).  An [Event] is one such uninterrupted
    stretch of one request. *)

Module Loop.

Inductive Event :=
(** lines 44-56, and lines 57-59 too when there is nothing to wait *)
| Arrive (id : nat) (query : jsstring) (lookedAt now sentAt : Z)
(** the timer of line 56 has fired: lines 57-59 *)
| Wake (id : nat) (sentAt : Z)
(** the fetch has settled: lines 70-99 *)
| Settle (id : nat) (up : DdgUpstream) (storedAt sweptAt : Z).

(** The server with its suspended requests: [sleeping] maps a request
    on the timer to its query and the time the timer is due,
    [fetching] a request awaiting the upstream to its query; [sent]
    lists the upstream requests with the time each was dispatched,
    [replies] what was answered; [clock] is the latest reading of
    [Date.now()]. *)
Record State := mkState {
  server : Server;
  sleeping : gmap nat (jsstring * Z);
  fetching : gmap nat jsstring;
  sent : list (nat * Z);
  replies : list (nat * Reply);
  clock : Z
}.

Definition init (s : Server) (now : Z) : State :=
  mkState s ∅ ∅ [] [] now.

(** Lines 57-59: stamp [lastSearchTs] and dispatch the fetch. *)
Definition dispatch (id : nat) (query : jsstring) (sentAt : Z) (l : State)
    : State :=
  mkState (stamp sentAt (server l)) (delete id (sleeping l))
          (<[id := query]> (fetching l)) (sent l ++ [(id, sentAt)])
          (replies l) sentAt.

Section CaseMap.

Variable toLowerCase : jsstring → jsstring.

(** One stretch; [None] when the event cannot happen in this state:
    the clock would run backwards, a timer would fire early, or the
    request is not suspended where the event resumes it. *)
Definition step (e : Event) (l : State) : option State :=
  match e with
  | Arrive id query lookedAt now sentAt =>
    if negb ((clock l <=? lookedAt) && (lookedAt <=? now)
             && (now <=? sentAt)) then None
    else if bool_decide (id ∈ dom (sleeping l) ∪ dom (fetching l))
    then None
    else
      match fresh (ddgCacheKey toLowerCase query) lookedAt CACHE_TTL
                  (server l) with
      | Some cached =>
        Some (mkState (server l) (sleeping l) (fetching l) (sent l)
                      (replies l ++ [(id, Results (results cached) true)])
                      lookedAt)
      | None =>
        let wait := throttleWait now (server l) in
        if 0 <? wait then
          Some (mkState (server l)
                        (<[id := (query, now + wait)]> (sleeping l))
                        (fetching l) (sent l) (replies l) now)
        else Some (dispatch id query sentAt l)
      end
  | Wake id sentAt =>
    match sleeping l !! id with
    | Some (query, due) =>
      if (due <=? sentAt) && (clock l <=? sentAt)
      then Some (dispatch id query sentAt l)
      else None
    | None => None
    end
  | Settle id up storedAt sweptAt =>
    match fetching l !! id with
    | Some query =>
      if (clock l <=? storedAt) && (storedAt <=? sweptAt) then
        let '(reply, s) :=
          ddgFinish toLowerCase query up storedAt sweptAt (server l) in
        Some (mkState s (sleeping l) (delete id (fetching l)) (sent l)
                      (replies l ++ [(id, reply)]) sweptAt)
      else None
    | None => None
    end
  end.

(** A schedule, run from left to right. *)
Fixpoint run (es : list Event) (l : State) : option State :=
  match es with
  | [] => Some l
  | e :: es => l' ← step e l; run es l'
  end.

End CaseMap.

End Loop.

(** ** Derived notions used to state further properties *)

Module Shape.

(** [x] is a contiguous part of [s]. *)
Definition within (x s : jsstring) : Prop :=
  ∃ pre post, s = pre ++ x ++ post.

(** Every code unit of [s] is white space for [trim]. *)
Definition blank (s : jsstring) : Prop := Forall (fun c => isSpace c = true) s.

End Shape.
Import Shape.

(** ** What is observed of the pool *)

Module PoolState.

(** [bm.sessions.size], as [GET /health] reports it (line 283). *)
Definition health (m : Manager) : nat := size (sessions m).

(** A manager in a state the program can reach: some uses of the pool,
    run from [new BrowserManager()]. *)
Definition reachable (m : Manager) : Prop :=
  ∃ ops, m = Engine.run ops create.

(** The handles held in [sessions] were issued by Playwright, and no
    handle is held by two users. *)
Definition wellFormed (m : Manager) : Prop :=
  (∀ u s, sessions m !! u = Some s →
          (context s < contexts m)%nat ∧ (page s < pages m)%nat)
  ∧ (∀ u v s s', u ≠ v → sessions m !! u = Some s → sessions m !! v = Some s' →
                 context s ≠ context s' ∧ page s ≠ page s').

(** The [url] field of a result. *)
Definition resultUrl (r : ExtractionResult) : jsstring :=
  match r with Found _ u _ | NotFound _ u _ => u end.

End PoolState.
Import PoolState.

(** ** Reading the scraped backend's blocks *)

Module Blocks.

(** The result lines 82-85 build from a block. *)
Definition toResult (el : ResultBlock) : SearchResult :=
  mkResult (trim (text (anchorText el))) (orEmpty (href el))
           (trim (text (snippetText el))).

(** The link test of line 80, apart from [seen]. *)
Definition linkOk (el : ResultBlock) : bool :=
  startsWith (orEmpty (href el)) (js "http")
  && negb (includes (orEmpty (href el)) (js "duckduckgo.com/y.js")).

(** The title test of line 83. *)
Definition titled (el : ResultBlock) : bool :=
  truthy (trim (text (anchorText el))).

(** The mapping of lines 145-149. *)
Definition fromOrganic (r : Organic) : SearchResult :=
  mkResult (o_title r) (o_url r) (orEmpty (o_desc r)).

End Blocks.
Import Blocks.

(** ** Schedules in which nobody arrives at a closed gate in use *)

Module Serial.

Import Loop.

(** Successive dispatch times lie at least [MIN_GAP_MS] apart. *)
Fixpoint gapsOk (times : list Z) : Prop :=
  match times with
  | a :: (b :: _) as rest => a + MIN_GAP_MS ≤ b ∧ gapsOk rest
  | _ => True
  end.

Definition arrives (e : Event) : bool :=
  match e with Arrive _ _ _ _ _ => true | _ => false end.

(** [Loop.run], refusing a schedule in which a request arrives while
    another one is waiting on the throttle's timer. *)
Fixpoint runSerial (toLowerCase : jsstring → jsstring) (es : list Event)
    (l : State) : option State :=
  match es with
  | [] => Some l
  | e :: es =>
    if arrives e && negb (bool_decide (sleeping l = ∅)) then None
    else l' ← step toLowerCase e l; runSerial toLowerCase es l'
  end.

(** What holds between the stretches of a serial schedule: the gaps so
    far are kept, the stamp is not older than the last dispatch, and a
    request on the timer is the only one and is due no earlier than
    [MIN_GAP_MS] after the stamp. *)
Definition inv (l : State) : Prop :=
  gapsOk ((sent l).*2)
  ∧ (∀ t, last ((sent l).*2) = Some t → t ≤ lastSearchTs (server l))
  ∧ (∀ id q due, sleeping l !! id = Some (q, due) →
       lastSearchTs (server l) + MIN_GAP_MS ≤ due
       ∧ delete id (sleeping l) = ∅).

End Serial.

(** ** [getSession] cut at its first [await]

    Line 27 runs without interruption; from line 37 on the method
    awaits Playwright, and other handlers may run before it goes on. *)

Module Overlap.

(** Line 27: the cached session, if there is one. *)
Definition getSessionCheck (userId : jsstring) (m : Manager)
    : option Session :=
  sessions m !! userId.

(** Lines 29-63: what a call does once line 27 has found nothing. *)
Definition getSessionCreate (userId : jsstring) (fault : Fault) (m : Manager)
    : Outcome Session * Manager :=
  match browser m with
  | None => (Throws, m)
  | Some _ =>
    if decide (fault = NewContextFails) then (Throws, m) else
    let '(ctx, m) := newContext m in
    if decide (fault = AddInitScriptFails) then (Throws, m) else
    let m := did (AddInitScript ctx) m in
    if decide (fault = NewPageFails) then (Throws, m) else
    let '(pg, m) := newPage ctx m in
    if decide (fault = RouteFails) then (Throws, m) else
    let m := did (Route ctx) m in
    let session := mkSession ctx pg in
    (Returns session, setSession userId session m)
  end.

End Overlap.

(* ===================================================================== *)
(** * Part II: properties                                                 *)
(* ===================================================================== *)

(** ** Facts about JavaScript strings *)

Module JsStringFacts.

Lemma len_nonneg s : 0 ≤ len s.
Proof. unfold len. lia. Qed.

Lemma len_app s t : len (s ++ t) = len s + len t.
Proof. unfold len. rewrite length_app. lia. Qed.

Lemma truthy_true s : truthy s = true ↔ s ≠ [].
Proof. destruct s; simpl; split; intros; congruence. Qed.

Lemma startsWith_spec s p : startsWith s p = true ↔ ∃ post, s = p ++ post.
Proof.
  revert s. induction p as [|c p IH]; intros s; simpl.
  - destruct s; (split; [intros _; eexists; reflexivity | done]).
  - destruct s as [|d s]; simpl.
    + split; [discriminate | intros [post H]; discriminate].
    + rewrite andb_true_iff, N.eqb_eq, IH. split.
      * intros [-> [post ->]]. eauto.
      * intros [post H]. simplify_eq. eauto.
Qed.

Lemma occurs_at_0 s p : occurs_at s p 0 ↔ startsWith s p = true.
Proof.
  rewrite startsWith_spec. unfold occurs_at. split.
  - intros (pre & post & -> & Hl). apply nil_length_inv in Hl as ->. eauto.
  - intros [post ->]. exists [], post. eauto.
Qed.

Lemma occurs_at_S c s p i : occurs_at (c :: s) p (S i) ↔ occurs_at s p i.
Proof.
  unfold occurs_at. split.
  - intros (pre & post & H & Hl). destruct pre as [|d pre]; [discriminate|].
    simpl in *. simplify_eq. eauto.
  - intros (pre & post & -> & Hl). exists (c :: pre), post. simpl. eauto.
Qed.

Lemma occurs_at_nil p i : occurs_at [] p i ↔ p = [] ∧ i = 0%nat.
Proof.
  unfold occurs_at. split.
  - intros (pre & post & H & Hl). symmetry in H.
    apply app_eq_nil in H as [-> H]. apply app_eq_nil in H as [-> _].
    simpl in Hl. eauto.
  - intros [-> ->]. exists [], []. eauto.
Qed.

Lemma occurs_at_bound s p i :
  occurs_at s p i → (i + length p ≤ length s)%nat.
Proof.
  intros (pre & post & -> & <-). rewrite !length_app. lia.
Qed.

Lemma indexOf_from_range k s p :
  indexOf_from k s p = -1 ∨ k ≤ indexOf_from k s p ≤ k + len s.
Proof.
  revert k. induction s as [|c s IH]; intros k.
  - destruct p; unfold len; simpl; lia.
  - cbn [indexOf_from].
    destruct (startsWith (c :: s) p); [unfold len; simpl; lia|].
    specialize (IH (k + 1)). unfold len in *. simpl length. lia.
Qed.

(** Scanning from [k] only shifts the answer. *)
Lemma indexOf_from_shift k s p :
  indexOf_from k s p =
    if indexOf s p =? -1 then -1 else k + indexOf s p.
Proof.
  unfold indexOf. revert k. induction s as [|c s IH]; intros k.
  - destruct p; simpl; lia.
  - cbn [indexOf_from]. destruct (startsWith (c :: s) p); simpl; [lia|].
    rewrite (IH (k + 1)), (IH (0 + 1)).
    destruct (indexOf_from 0 s p =? -1) eqn:E; simpl; [done|].
    apply Z.eqb_neq in E. pose proof (indexOf_from_range 0 s p).
    destruct (0 + 1 + indexOf_from 0 s p =? -1) eqn:E'; lia.
Qed.

(** [indexOf] answers [-1] or a position of the string. *)
Lemma indexOf_range s p :
  indexOf s p = -1 ∨ 0 ≤ indexOf s p ≤ len s.
Proof.
  pose proof (indexOf_from_range 0 s p). unfold indexOf. lia.
Qed.

(** [indexOf] finds the first occurrence. *)
Lemma indexOf_first s p i :
  first_occurrence s p i → indexOf s p = Z.of_nat i.
Proof.
  revert i. induction s as [|c s IH]; intros i [Hocc Hmin].
  - apply occurs_at_nil in Hocc as [-> ->]. reflexivity.
  - unfold indexOf. cbn [indexOf_from]. destruct i as [|i].
    + apply occurs_at_0 in Hocc. rewrite Hocc. reflexivity.
    + destruct (startsWith (c :: s) p) eqn:E.
      { exfalso. apply (Hmin 0%nat); [lia|]. by apply occurs_at_0. }
      rewrite indexOf_from_shift.
      rewrite (IH i).
      * destruct (Z.of_nat i =? -1) eqn:E'; lia.
      * split; [by apply occurs_at_S in Hocc|].
        intros j Hj Hoc. apply (Hmin (S j)); [lia|]. by apply occurs_at_S.
Qed.

(** [indexOf] answers [-1] exactly when there is no occurrence. *)
Lemma indexOf_absent s p : absent s p ↔ indexOf s p = -1.
Proof.
  induction s as [|c s IH]; unfold indexOf; cbn [indexOf_from].
  - destruct (startsWith [] p) eqn:E.
    + split; [|discriminate]. intros H. exfalso. apply (H 0%nat).
      by apply occurs_at_0.
    + split; [done|]. intros _ i Hocc.
      apply occurs_at_nil in Hocc as [-> ->]. discriminate.
  - destruct (startsWith (c :: s) p) eqn:E.
    + split; [|discriminate]. intros H. exfalso. apply (H 0%nat).
      by apply occurs_at_0.
    + rewrite indexOf_from_shift. split.
      * intros H. destruct IH as [IH _]. rewrite IH; [done|].
        intros i Hocc. apply (H (S i)). by apply occurs_at_S.
      * intros H i Hocc. destruct (indexOf s p =? -1) eqn:E'.
        -- apply Z.eqb_eq in E'. destruct IH as [_ IH].
           destruct i as [|i].
           ++ apply occurs_at_0 in Hocc. congruence.
           ++ apply occurs_at_S in Hocc. by apply (IH E' i).
        -- apply Z.eqb_neq in E'. pose proof (indexOf_range s p). lia.
Qed.

(** An answer other than [-1] is the first occurrence. *)
Lemma indexOf_found s p :
  indexOf s p ≠ -1 → first_occurrence s p (Z.to_nat (indexOf s p)).
Proof.
  induction s as [|c s IH]; unfold indexOf; cbn [indexOf_from].
  - destruct (startsWith [] p) eqn:E; [|done]. intros _. split.
    + by apply occurs_at_0.
    + simpl. lia.
  - destruct (startsWith (c :: s) p) eqn:E.
    + intros _. split; [by apply occurs_at_0 | simpl; lia].
    + rewrite indexOf_from_shift.
      destruct (indexOf s p =? -1) eqn:E'; [done|]. intros _.
      apply Z.eqb_neq in E'. destruct (IH E') as [Hocc Hmin].
      pose proof (indexOf_range s p) as Hr.
      replace (Z.to_nat (0 + 1 + indexOf s p))
        with (S (Z.to_nat (indexOf s p))) by lia.
      split; [by apply occurs_at_S|].
      intros [|j] Hj Hoc.
      * apply occurs_at_0 in Hoc. congruence.
      * apply occurs_at_S in Hoc. apply (Hmin j); [lia | done].
Qed.

(** In range, [slice] is the segment between the two positions. *)
Lemma slice_segment s a b :
  0 ≤ a → 0 ≤ b →
  slice s a b =
    take (Z.to_nat (Z.min b (len s)) - Z.to_nat (Z.min a (len s)))
         (drop (Z.to_nat (Z.min a (len s))) s).
Proof.
  intros Ha Hb. unfold slice.
  destruct (a <? 0) eqn:Ea; [lia|]. destruct (b <? 0) eqn:Eb; [lia|].
  f_equal. pose proof (len_nonneg s). lia.
Qed.

(** Between two positions of the string, in order, [slice] is the
    segment from the first up to the second. *)
Lemma slice_window s a b :
  0 ≤ a ≤ b → b ≤ len s →
  slice s a b = take (Z.to_nat (b - a)) (drop (Z.to_nat a) s).
Proof.
  intros Hab Hb. unfold slice.
  destruct (a <? 0) eqn:Ea; [lia|]. destruct (b <? 0) eqn:Eb; [lia|].
  by rewrite !Z.min_l by lia.
Qed.

(** [s.slice(0, n)] is the first [n] code units, or all of [s]. *)
Lemma slice_prefix s n : 0 ≤ n → slice s 0 n = take (Z.to_nat n) s.
Proof.
  intros Hn. rewrite slice_segment by lia.
  pose proof (len_nonneg s) as Hl.
  rewrite (Z.min_l 0) by lia. change (Z.to_nat 0) with 0%nat.
  rewrite drop_0, Nat.sub_0_r.
  unfold len in *. destruct (Z.min_spec n (Z.of_nat (length s))) as [[? ->]|[? ->]].
  - done.
  - rewrite Nat2Z.id. rewrite take_ge by lia. by rewrite take_ge by lia.
Qed.

Lemma slice_prefix_len s n : 0 ≤ n → len (slice s 0 n) = Z.min n (len s).
Proof.
  intros Hn. rewrite slice_prefix by done. unfold len.
  rewrite length_take. lia.
Qed.

End JsStringFacts.
Import JsStringFacts.

(** ** The excerpt locator *)

Module ExtractFacts.

(** The guard of line 168 passes on a non-empty body. *)
Lemma guard_nonempty (body : jsstring) :
  body ≠ [] → negb (truthy body) || (len body =? 0) = false.
Proof.
  intros H. destruct body as [|c body]; [done|]. reflexivity.
Qed.

(** The probe of the fuzzy match is the first 40 code units. *)
Lemma probe_take (excerpt : jsstring) : slice excerpt 0 40 = take 40 excerpt.
Proof. by rewrite slice_prefix. Qed.

(** Where the excerpt occurs, so does its probe. *)
Lemma occurs_probe (body excerpt : jsstring) i :
  occurs_at body excerpt i → occurs_at body (take 40 excerpt) i.
Proof.
  intros (pre & post & -> & Hl).
  exists pre, (drop 40 excerpt ++ post). split; [|done].
  by rewrite (assoc_L (++) (take 40 excerpt)), take_drop.
Qed.

(** C3, as the claim states it, at one input: an empty body contains
    the empty excerpt at index 0 (its first occurrence), and
    [extractFromText] answers [null], not [Found]. *)
Lemma extractFromText_empty_body_not_found :
  first_occurrence [] [] 0
  ∧ extractFromText [] [] 500 1000 (js "t") (js "u") = None.
Proof.
  split; [|reflexivity]. split.
  - by exists [], [].
  - intros j Hj. lia.
Qed.

(** C3 (amended): for every non-empty body text of length [len] in
    which the excerpt is found at index [i] (its first occurrence, the
    one [indexOf] reports), [extractFromText] returns the [Found]
    variant whose [extractedText] is exactly
    [body.slice(max(0, i - before), min(len, i + len(excerpt) + after))]. *)
Theorem extractFromText_exact (body excerpt : jsstring) (before after : Z)
    (title pageUrl : jsstring) (i : nat) :
  body ≠ [] →
  first_occurrence body excerpt i →
  extractFromText body excerpt before after title pageUrl =
    Some (Found title pageUrl
            (slice body (Z.max 0 (Z.of_nat i - before))
                        (Z.min (len body)
                               (Z.of_nat i + len excerpt + after)))).
Proof.
  intros Hne Hfirst. unfold extractFromText.
  rewrite (guard_nonempty _ Hne).
  rewrite (indexOf_first _ _ _ Hfirst).
  destruct (Z.of_nat i =? -1) eqn:E; [apply Z.eqb_eq in E; lia | reflexivity].
Qed.

Lemma extractFromText_exact_witness :
  extractFromText (js "lorem ipsum the quick brown fox jumps over")
                  (js "the quick brown fox") 5 5 (js "t") (js "u")
  = Some (Found (js "t") (js "u") (js "psum the quick brown fox jump")).
Proof.
  rewrite (extractFromText_exact _ _ 5 5 _ _ 12).
  - reflexivity.
  - discriminate.
  - apply (indexOf_found (js "lorem ipsum the quick brown fox jumps over")
                         (js "the quick brown fox")).
    vm_compute. discriminate.
Defined.

(** C4: for every body text that does not contain the excerpt verbatim
    and in which the excerpt's first 40 characters are found at index
    [j], [extractFromText] returns the [Found] variant with the window
    [[max(0, j - before), min(len, j + probeLen + after)]], [probeLen]
    being the length of the 40-character probe, not of the excerpt. *)
Theorem extractFromText_fuzzy (body excerpt : jsstring) (before after : Z)
    (title pageUrl : jsstring) (j : nat) :
  absent body excerpt →
  first_occurrence body (take 40 excerpt) j →
  extractFromText body excerpt before after title pageUrl =
    Some (Found title pageUrl
            (slice body (Z.max 0 (Z.of_nat j - before))
                        (Z.min (len body)
                               (Z.of_nat j + len (take 40 excerpt) + after)))).
Proof.
  intros Habs Hfirst. unfold extractFromText.
  assert (body ≠ []) as Hne.
  { intros ->. destruct Hfirst as [Hocc _].
    apply occurs_at_nil in Hocc as [Hp _].
    apply (Habs 0%nat). apply occurs_at_nil. split; [|done].
    destruct excerpt; [done | discriminate]. }
  rewrite (guard_nonempty _ Hne).
  apply indexOf_absent in Habs. rewrite Habs. simpl (-1 =? -1).
  cbv iota. rewrite probe_take.
  rewrite (indexOf_first _ _ _ Hfirst).
  destruct (Z.of_nat j =? -1) eqn:E; [apply Z.eqb_eq in E; lia | reflexivity].
Qed.

Lemma extractFromText_fuzzy_witness :
  extractFromText
    (js "intro. It was the best of times, it was the worst of times, it was the age")
    (js "It was the best of times, it was the worst of times; it was") 3 4
    (js "t") (js "u")
  = Some (Found (js "t") (js "u")
            (js "o. It was the best of times, it was the worst o")).
Proof.
  rewrite (extractFromText_fuzzy _ _ 3 4 _ _ 7).
  - reflexivity.
  - apply indexOf_absent. vm_compute. reflexivity.
  - apply (indexOf_found
             (js "intro. It was the best of times, it was the worst of times, it was the age")
             (take 40 (js "It was the best of times, it was the worst of times; it was"))).
    vm_compute. discriminate.
Defined.

(** C5: for every non-empty body text in which neither the excerpt nor
    its first 40 characters occur, [extractFromText] returns the
    [NotFound] variant whose [fullText] is the beginning of the body,
    cut to at most 5000 characters. *)
Theorem extractFromText_not_found (body excerpt : jsstring) (before after : Z)
    (title pageUrl : jsstring) :
  body ≠ [] →
  absent body excerpt →
  absent body (take 40 excerpt) →
  extractFromText body excerpt before after title pageUrl =
    Some (NotFound title pageUrl (take 5000 body))
  ∧ len (take 5000 body) = Z.min 5000 (len body)
  ∧ len (take 5000 body) ≤ 5000.
Proof.
  intros Hne Habs Hprobe. split.
  - unfold extractFromText. rewrite (guard_nonempty _ Hne).
    apply indexOf_absent in Habs. rewrite Habs. simpl (-1 =? -1). cbv iota.
    rewrite probe_take. apply indexOf_absent in Hprobe. rewrite Hprobe.
    simpl (-1 =? -1). cbv iota. by rewrite slice_prefix.
  - unfold len. rewrite length_take. lia.
Qed.

Lemma extractFromText_not_found_witness :
  extractFromText (js "lorem ipsum dolor sit amet") (js "quick brown fox")
                  500 1000 (js "t") (js "u")
  = Some (NotFound (js "t") (js "u") (js "lorem ipsum dolor sit amet")).
Proof.
  destruct (extractFromText_not_found (js "lorem ipsum dolor sit amet")
              (js "quick brown fox") 500 1000 (js "t") (js "u"))
    as [H _].
  - discriminate.
  - apply indexOf_absent. vm_compute. reflexivity.
  - apply indexOf_absent. vm_compute. reflexivity.
  - rewrite H. reflexivity.
Defined.

End ExtractFacts.

(** ** The session pool *)

Module PoolFacts.

Lemma sessions_did c m : sessions (did c m) = sessions m.
Proof. reflexivity. Qed.

Lemma sessions_newPage ctx m : sessions (newPage ctx m).2 = sessions m.
Proof. reflexivity. Qed.

(** A cached session is handed back with the manager untouched. *)
Lemma getSession_cached userId fault m s :
  sessions m !! userId = Some s →
  getSession userId fault m = (Returns s, m).
Proof. intros H. unfold getSession. by rewrite H. Qed.

(** What a call that returns leaves in the map. *)
Lemma getSession_returns userId fault m s m' :
  getSession userId fault m = (Returns s, m') →
  sessions m' !! userId = Some s.
Proof.
  unfold getSession. destruct (sessions m !! userId) as [s0|] eqn:E.
  { intros ?; simplify_eq. done. }
  destruct (browser m); [|discriminate].
  repeat case_decide; try discriminate.
  unfold newContext, newPage. simpl.
  intros ?; simplify_eq. simpl. apply lookup_insert_eq.
Qed.

(** [getSession] never removes or replaces an entry. *)
Lemma getSession_keeps userId fault m u s :
  sessions m !! u = Some s →
  sessions (getSession userId fault m).2 !! u = Some s.
Proof.
  intros Hu. unfold getSession.
  destruct (sessions m !! userId) as [s0|] eqn:E; [done|].
  destruct (browser m); [|done].
  repeat case_decide; try done.
  simpl. rewrite lookup_insert_ne; [done|]. intros ->. congruence.
Qed.

(** With the browser launched and no fault, a session is there after. *)
Lemma getSession_acquires userId m :
  is_Some (browser m) →
  ∃ s, getSession userId NoFault m
       = (Returns s, (getSession userId NoFault m).2)
       ∧ sessions (getSession userId NoFault m).2 !! userId = Some s.
Proof.
  intros [b Hb]. unfold getSession.
  destruct (sessions m !! userId) as [s0|] eqn:E; [by exists s0|].
  rewrite Hb. repeat case_decide; try done.
  eexists. split; [reflexivity|]. simpl. apply lookup_insert_eq.
Qed.

Lemma start_keeps ok m : sessions (start ok m).2 = sessions m.
Proof. by destruct ok. Qed.

Lemma destroy_other userId closes m u :
  u ≠ userId →
  sessions (destroy userId closes m).2 !! u = sessions m !! u.
Proof.
  intros Hne. unfold destroy.
  destruct (sessions m !! userId); [|done]. destruct closes; [|done].
  simpl. by rewrite lookup_delete_ne.
Qed.

(** A [destroy] whose [context.close()] resolves forgets the session. *)
Lemma destroy_forgets userId m :
  sessions (destroy userId true m).2 !! userId = None.
Proof.
  unfold destroy. destruct (sessions m !! userId) eqn:E; [|done].
  simpl. apply lookup_delete_eq.
Qed.

End PoolFacts.
Import PoolFacts.

(** ** The extraction engine *)

Module EngineFacts.

(** The browser path leaves every cached session in place. *)
Lemma browserPath_keeps url excerpt before after userId br m u s :
  sessions m !! u = Some s →
  sessions (browserPath url excerpt before after userId br m).2 !! u = Some s.
Proof.
  intros Hu. unfold browserPath.
  pose proof (getSession_keeps userId (sessionFault br) m u s Hu) as Hk.
  destruct (getSession userId (sessionFault br) m) as [[s0|] m1]; [|done].
  simpl in Hk. destruct (pageOpens br); [|done]. simpl.
  destruct (pageReply br); done.
Qed.

(** With the browser launched and Playwright not failing, the browser
    path leaves a session for [userId] in the pool. *)
Lemma browserPath_acquires url excerpt before after userId br m :
  is_Some (browser m) → sessionFault br = NoFault →
  is_Some
    (sessions (browserPath url excerpt before after userId br m).2 !! userId).
Proof.
  intros Hb Hf. unfold browserPath. rewrite Hf.
  destruct (getSession_acquires userId m Hb) as (s & Hg & Hs).
  rewrite Hg. destruct (pageOpens br); simpl; [|by eexists].
  destruct (pageReply br); by eexists.
Qed.

Lemma extractOneUrl_keeps url excerpt before after userId reply br m u s :
  sessions m !! u = Some s →
  sessions (extractOneUrl url excerpt before after userId reply br m).2 !! u
    = Some s.
Proof.
  intros Hu. unfold extractOneUrl.
  destruct (extractFast url excerpt before after reply) as [[r|]|]; try done.
  by apply browserPath_keeps.
Qed.

(** C1, as the claim states it, at one input: the fetch succeeds, the
    page text is retrieved, the excerpt logic runs to its [NotFound]
    outcome, and a browser session is acquired all the same. *)
Lemma extractOneUrl_not_found_acquires_session :
  let m := (start true create).2 in
  let doc := mkDocument (js "Title") [] (js " hello world ") in
  let br := mkBrowserRun NoFault true
              (Rendered (js "hello world") (js "Title") (js "http://a/")) in
  extractFromText (fastBody doc) (js "zzz") 500 1000 (fastTitle doc)
                  (js "http://a/")
    = Some (NotFound (js "Title") (js "http://a/") (js "hello world"))
  ∧ sessions m !! js "alice" = None
  ∧ sessions (extractOneUrl (js "http://a/") (js "zzz") 500 1000 (js "alice")
                 (Response true (Some doc)) br m).2 !! js "alice"
    = Some (mkSession 0 0)
  ∧ calls (extractOneUrl (js "http://a/") (js "zzz") 500 1000 (js "alice")
                 (Response true (Some doc)) br m).2
    = [Launch 0; NewContext 0; AddInitScript 0; NewPage 0 0; Route 0;
       NewPage 0 1; Goto 1 (js "http://a/"); Evaluate 1; ClosePage 1].
Proof. vm_compute. done. Qed.

(** C1 (amended): [extractOneUrl] enters the browser fallback exactly
    when the fast path does not end in [Found]: the fetch fails or is
    not a success, the page text is empty, or the excerpt logic ends in
    [NotFound]; it then runs the browser path, which (browser launched,
    Playwright not failing) acquires the user's session.  When the fast
    path's excerpt logic ends in [Found], that result is returned and
    the pool is left untouched: no session is acquired. *)
Theorem extractOneUrl_fallback (url excerpt : jsstring) (before after : Z)
    (userId : jsstring) (reply : HttpReply) (br : BrowserRun) (m : Manager) :
  let call := extractOneUrl url excerpt before after userId reply br m in
  let fallback :=
    call = browserPath url excerpt before after userId br m
    ∧ (is_Some (browser m) → sessionFault br = NoFault →
       is_Some (sessions call.2 !! userId)) in
  match reply with
  | Response true (Some doc) =>
    match extractFromText (fastBody doc) excerpt before after
                          (fastTitle doc) url with
    | Some (Found t u x) => call = (Returns (Found t u x), m)
    | Some (NotFound _ _ _) | None => fallback
    end
  | Response true None => call = (Throws, m)
  | FetchRejected | Response false _ => fallback
  end.
Proof.
  intros call fallback.
  assert (extractFast url excerpt before after reply = Returns None
          → fallback) as Hfb.
  { intros E. subst call fallback. unfold extractOneUrl. rewrite E.
    split; [done|]. apply browserPath_acquires. }
  destruct reply as [|[] [doc|]]; try (apply Hfb; reflexivity).
  - destruct (extractFromText (fastBody doc) excerpt before after
                (fastTitle doc) url) as [[t u x|t u x]|] eqn:E.
    + subst call. unfold extractOneUrl, extractFast. by rewrite E.
    + apply Hfb. unfold extractFast. by rewrite E.
    + apply Hfb. unfold extractFast. by rewrite E.
  - reflexivity.
Qed.

Lemma extractOneUrl_fallback_witness :
  let m := (start true create).2 in
  let br := mkBrowserRun NoFault true
              (Rendered (js "hello world") (js "Title") (js "http://a/")) in
  is_Some (sessions (extractOneUrl (js "http://a/") (js "zzz") 500 1000
                       (js "alice") FetchRejected br m).2 !! js "alice").
Proof.
  intros m br.
  destruct (extractOneUrl_fallback (js "http://a/") (js "zzz") 500 1000
              (js "alice") FetchRejected br m) as [_ H].
  apply H; [by eexists | reflexivity].
Defined.

(** C9: in a batch, an item whose fast-path extraction throws or yields
    no result contributes nothing and a successful item contributes its
    result, whatever its siblings do; the results keep the order of the
    items. *)
Theorem extractBatch_drops_failures (pre post : list (Item * HttpReply))
    (item : Item) (reply : HttpReply) (before after : option Z) :
  extractBatch (pre ++ (item, reply) :: post) before after =
    extractBatch pre before after
    ++ match extractFast (Engine.url item) (excerpt item)
               (nullish (charsBefore item) (nullish before 500))
               (nullish (charsAfter item) (nullish after 1000)) reply with
       | Returns (Some v) => [v]
       | Returns None | Throws => []
       end
    ++ extractBatch post before after.
Proof.
  unfold extractBatch, filterBoolean.
  rewrite !fmap_app, omap_app. f_equal. cbn [fmap list_fmap omap list_omap].
  destruct (extractFast _ _ _ _ reply) as [[v|]|]; reflexivity.
Qed.

(** The spec's example: five items, the third failing its fetch. *)
Example extractBatch_five_items :
  let page t := Response true (Some (mkDocument [] [] t)) in
  let item := mkItem (js "http://a/") (js "fox") (Some 1) None in
  extractBatch
    [(item, page (js "a fox b")); (item, page (js "c fox d"));
     (item, FetchRejected);
     (item, page (js "e fox f")); (item, page (js "g fox h"))] None (Some 2)
  = [Found [] (js "http://a/") (js " fox b");
     Found [] (js "http://a/") (js " fox d");
     Found [] (js "http://a/") (js " fox f");
     Found [] (js "http://a/") (js " fox h")].
Proof. vm_compute. reflexivity. Qed.

(** Operations other than [destroy(userId)] keep the user's entry. *)
Lemma apply_keeps userId s op m :
  ¬ destroys userId op →
  sessions m !! userId = Some s →
  sessions (apply op m) !! userId = Some s.
Proof.
  intros Hnd Hu. destruct op as [ok|u f|u c|url ex cb ca u reply br]; simpl.
  - by rewrite start_keeps.
  - by apply getSession_keeps.
  - rewrite destroy_other; [done|]. intros ->. apply Hnd. by exists c.
  - by apply extractOneUrl_keeps.
Qed.

Lemma run_keeps userId s ops m :
  Forall (fun op => ¬ destroys userId op) ops →
  sessions m !! userId = Some s →
  sessions (run ops m) !! userId = Some s.
Proof.
  unfold run. intros Hall. revert m.
  induction Hall as [|op ops Hop _ IH]; intros m Hu; [done|].
  simpl. apply IH. by apply apply_keeps.
Qed.

(** For calls that run one after the other, each to its end: once
    [getSession(userId)] has returned a session, a further call with
    the same [userId] returns that same session and changes nothing (no
    context, no page, no Playwright call), also after any such uses of
    the pool other than [destroy(userId)]; those keep the entry in the
    map, and [destroy(userId)] removes it. *)
Theorem getSession_idempotent (userId : jsstring) (fault fault' : Fault)
    (m m1 : Manager) (s : Session) :
  getSession userId fault m = (Returns s, m1) →
  getSession userId fault' m1 = (Returns s, m1)
  ∧ (∀ ops, Forall (fun op => ¬ destroys userId op) ops →
       sessions (run ops m1) !! userId = Some s
       ∧ getSession userId fault' (run ops m1) = (Returns s, run ops m1))
  ∧ (∀ ops, sessions (destroy userId true (run ops m1)).2 !! userId = None).
Proof.
  intros Hget. apply getSession_returns in Hget as Hs.
  split; [by apply getSession_cached|]. split.
  - intros ops Hops. pose proof (run_keeps _ _ _ _ Hops Hs) as Hr.
    split; [done | by apply getSession_cached].
  - intros ops. apply destroy_forgets.
Qed.

Lemma getSession_idempotent_witness :
  let m := (start true create).2 in
  let m1 := (getSession (js "alice") NoFault m).2 in
  getSession (js "alice") NewContextFails m1 = (Returns (mkSession 0 0), m1).
Proof.
  intros m m1.
  apply (getSession_idempotent (js "alice") NoFault NewContextFails m m1
           (mkSession 0 0)).
  reflexivity.
Defined.

End EngineFacts.

(** ** The search backends and their cache *)

Module SearchFacts.

Lemma orEmpty_http (h : option jsstring) :
  startsWith (orEmpty h) (js "http") = true → h = Some (orEmpty h).
Proof.
  destruct h as [[|c s]|]; simpl; try discriminate. done.
Qed.

(** The loop keeps: at most 10 results, all [accepted], with distinct
    urls, each url recorded in [seen]. *)
Lemma eachResult_invariant (B : ResultBlock → Prop) blocks :
  (∀ el, el ∈ blocks → B el) →
  ∀ results seen,
    (length results ≤ 10)%nat →
    Forall (accepted B) results →
    NoDup (url <$> results) →
    (∀ r, r ∈ results → url r ∈ seen) →
    (length (eachResult blocks results seen) ≤ 10)%nat
    ∧ Forall (accepted B) (eachResult blocks results seen)
    ∧ NoDup (url <$> eachResult blocks results seen).
Proof.
  induction blocks as [|el rest IH]; intros HB results seen Hlen Hacc Hnd Hseen.
  { done. }
  assert (∀ el', el' ∈ rest → B el') as HB'.
  { intros el' Hel. apply HB. by right. }
  cbn [eachResult].
  destruct (10 <=? length results)%nat eqn:Efull; [done|].
  apply Nat.leb_gt in Efull.
  destruct (negb (startsWith (orEmpty (href el)) (js "http"))
            || includes (orEmpty (href el)) (js "duckduckgo.com/y.js")
            || bool_decide (orEmpty (href el) ∈ seen)) eqn:Eskip.
  { by apply IH. }
  apply orb_false_iff in Eskip as [Eskip Hunseen].
  apply orb_false_iff in Eskip as [Hhttp Had].
  apply negb_false_iff in Hhttp.
  apply bool_decide_eq_false in Hunseen.
  destruct (negb (truthy (trim (text (anchorText el))))) eqn:Etitle.
  { apply IH; try done. intros r Hr. apply elem_of_union_r. by apply Hseen. }
  apply negb_false_iff, truthy_true in Etitle.
  apply IH; try done.
  - rewrite length_app. simpl. lia.
  - apply Forall_app. split; [done|]. apply Forall_singleton.
    repeat split; try done. exists el. repeat split.
    + apply HB. by left.
    + simpl. by apply orEmpty_http.
    + simpl. by intros ->.
  - rewrite fmap_app. apply NoDup_app. repeat split; [done| |].
    + intros u Hu Hin. simpl in Hin. apply list_elem_of_singleton in Hin as ->.
      apply list_elem_of_fmap in Hu as (r & Heq & Hr).
      apply Hunseen. rewrite Heq. by apply Hseen.
    + simpl. apply NoDup_singleton.
  - intros r Hr. apply elem_of_app in Hr as [Hr|Hr].
    + apply elem_of_union_r. by apply Hseen.
    + apply list_elem_of_singleton in Hr as ->. simpl.
      apply elem_of_union_l. by apply elem_of_singleton.
Qed.

(** C7: whatever blocks the upstream page holds, the parsed result list
    has at most 10 entries; every entry's url starts with [http] and
    does not contain the redirect/ad path [duckduckgo.com/y.js]; every
    entry's title is non-empty; every entry is read off one block (its
    snippet the empty string when the block has none); and no two
    entries share a url. *)
Theorem parseResults_wellformed (blocks : list ResultBlock) :
  (length (parseResults blocks) ≤ 10)%nat
  ∧ Forall (accepted (fun el => el ∈ blocks)) (parseResults blocks)
  ∧ NoDup (url <$> parseResults blocks).
Proof.
  unfold parseResults. apply eachResult_invariant.
  - done.
  - simpl. lia.
  - constructor.
  - constructor.
  - intros r Hr. by apply elem_of_nil in Hr.
Qed.

Example parseResults_sample :
  parseResults
    [mkBlock (Some (js "https://doc.rust-lang.org/book/"))
             (Some (js " The Rust Book ")) (Some (js " Ownership. "));
     mkBlock (Some (js "//duckduckgo.com/l/?uddg=x")) (Some (js "Rel")) None;
     mkBlock (Some (js "https://duckduckgo.com/y.js?ad=1")) (Some (js "Ad")) None;
     mkBlock (Some (js "https://doc.rust-lang.org/book/")) (Some (js "Dup")) None;
     mkBlock (Some (js "https://a.example/")) (Some (js "  ")) None;
     mkBlock None None None;
     mkBlock (Some (js "http://b.example/")) (Some (js "B")) None]
  = [mkResult (js "The Rust Book") (js "https://doc.rust-lang.org/book/")
              (js "Ownership.");
     mkResult (js "B") (js "http://b.example/") []].
Proof. vm_compute. reflexivity. Qed.

(** The sweep leaves alone an entry that is not older than the TTL. *)
Lemma evict_keeps now key e s :
  searchCache s !! key = Some e →
  now - CACHE_TTL ≤ ts e →
  searchCache (evict now s) !! key = Some e.
Proof.
  intros Hk Hts. unfold evict.
  destruct (500 <? size (searchCache s))%nat; [|done].
  simpl. apply map_lookup_filter_Some. split; [done|]. simpl. lia.
Qed.

Section CaseMap.

Variable toLowerCase : jsstring → jsstring.

Lemma googleCacheKey_prefixed q :
  startsWith (googleCacheKey toLowerCase q) (js "g:") = true.
Proof. apply startsWith_spec. by eexists. Qed.

(** Only the SERP backend's key carries a prefix; the two keys of one
    and the same query differ. *)
Lemma cacheKeys_same_query (q : jsstring) :
  ddgCacheKey toLowerCase q = toLowerCase (trim q)
  ∧ googleCacheKey toLowerCase q = js "g:" ++ toLowerCase (trim q)
  ∧ ddgCacheKey toLowerCase q ≠ googleCacheKey toLowerCase q.
Proof.
  split; [done|]. split; [done|].
  unfold ddgCacheKey, googleCacheKey. intros H.
  apply (f_equal length) in H. rewrite length_app in H. simpl in H. lia.
Qed.


End CaseMap.

(** C2 at a failing input: the scraped backend's key for the query
    [g:foo] is the SERP backend's key for [foo], although the prefix of
    line 114 is there to keep the two backends' keys apart; the scraped
    backend answers [g:foo] from the entry the SERP backend stored for
    [foo], marked [cached], without going upstream. *)
Lemma cacheKeys_collide :
  let hit := mkResult (js "Foo") (js "https://foo.example/") (js "about foo") in
  let serp := SerpResponse 200
                (mkSerpData None
                   (Some [mkOrganic (js "Foo") (js "https://foo.example/")
                                    (Some (js "about foo"))])) in
  let s := (searchGoogle asciiLower (js "foo") 1000 1001 serp boot).2 in
  ddgCacheKey asciiLower (js "g:foo") = googleCacheKey asciiLower (js "foo")
  ∧ searchDuckduckgo asciiLower (js "g:foo") 2000 2000 2000 2000 2000
      (DdgPage []) s
    = (Results [hit] true, s).
Proof. vm_compute. done. Qed.


(** The SERP backend on an empty organic list: nothing is stored. *)
Example searchGoogle_empty_not_cached :
  searchGoogle asciiLower (js "foo") 1000 1001
    (SerpResponse 200 (mkSerpData None (Some []))) boot
  = (Results [] false, boot).
Proof. reflexivity. Qed.

End SearchFacts.

(** ** The throttle gate under interleaving *)

Module LoopFacts.

Import Loop.

Section CaseMap.

Variable toLowerCase : jsstring → jsstring.

(** A request that finds the gate open is dispatched at least
    [MIN_GAP_MS] after the last stamp. *)
Lemma arrive_open_gap id query lookedAt now sentAt l :
  fresh (ddgCacheKey toLowerCase query) lookedAt CACHE_TTL (server l) = None →
  throttleWait now (server l) ≤ 0 →
  ∀ l', step toLowerCase (Arrive id query lookedAt now sentAt) l = Some l' →
  sent l' = sent l ++ [(id, sentAt)]
  ∧ lastSearchTs (server l) + MIN_GAP_MS ≤ sentAt.
Proof.
  intros Hmiss Hwait l'. unfold step. rewrite Hmiss.
  destruct (negb _) eqn:Eclock; [discriminate|].
  apply negb_false_iff in Eclock.
  apply andb_true_iff in Eclock as [Eclock Hsent].
  apply andb_true_iff in Eclock as [_ Hnow].
  case_bool_decide; [discriminate|].
  destruct (0 <? throttleWait now (server l)) eqn:Ew.
  { apply Z.ltb_lt in Ew. lia. }
  intros ?; simplify_eq. split; [done|].
  unfold throttleWait in Hwait. lia.
Qed.

(** A request that finds the gate closed sleeps until [MIN_GAP_MS]
    after the stamp it read, and is dispatched no earlier. *)
Lemma arrive_closed_gap id query lookedAt now sentAt wokenAt l l1 l2 :
  fresh (ddgCacheKey toLowerCase query) lookedAt CACHE_TTL (server l) = None →
  0 < throttleWait now (server l) →
  step toLowerCase (Arrive id query lookedAt now sentAt) l = Some l1 →
  step toLowerCase (Wake id wokenAt) l1 = Some l2 →
  sent l2 = sent l ++ [(id, wokenAt)]
  ∧ lastSearchTs (server l) + MIN_GAP_MS ≤ wokenAt.
Proof.
  intros Hmiss Hwait. unfold step at 1. rewrite Hmiss.
  destruct (negb _); [discriminate|].
  case_bool_decide; [discriminate|].
  destruct (0 <? throttleWait now (server l)) eqn:Ew.
  2:{ apply Z.ltb_ge in Ew. lia. }
  intros ?; simplify_eq. unfold step. simpl. rewrite lookup_insert_eq.
  destruct (_ && _) eqn:Edue; [|discriminate].
  apply andb_true_iff in Edue as [Hdue _]. apply Z.leb_le in Hdue.
  intros ?; simplify_eq. split; [done|].
  unfold throttleWait in *. lia.
Qed.

(** A request that no other request interleaves with leaves the server
    as the handler run in one piece does. *)
Lemma run_alone id query lookedAt now sentAt storedAt sweptAt up s c :
  c ≤ lookedAt ≤ now → now + throttleWait now s ≤ sentAt →
  sentAt ≤ storedAt ≤ sweptAt →
  fresh (ddgCacheKey toLowerCase query) lookedAt CACHE_TTL s = None →
  server <$> run toLowerCase
    (Arrive id query lookedAt now sentAt
     :: (if 0 <? throttleWait now s then [Wake id sentAt] else [])
     ++ [Settle id up storedAt sweptAt]) (init s c)
  = Some (searchDuckduckgo toLowerCase query lookedAt now sentAt storedAt
            sweptAt up s).2.
Proof.
  intros Hc Hdue Hst Hmiss.
  assert (0 ≤ throttleWait now s) as Hw by apply Z.le_max_l.
  unfold searchDuckduckgo. rewrite Hmiss.
  cbn [run step init server clock sleeping fetching mbind option_bind].
  rewrite Hmiss, !(proj2 (Z.leb_le _ _)) by lia.
  cbn [negb andb]. rewrite bool_decide_eq_false_2
    by (rewrite !dom_empty_L, (left_id_L ∅ (∪)); apply not_elem_of_empty).
  destruct (0 <? throttleWait now s) eqn:Ew;
    cbn [app run step dispatch init server clock sleeping fetching mbind
         option_bind];
    rewrite !lookup_insert_eq, ?(proj2 (Z.leb_le _ _)) by lia;
    cbn [andb run step dispatch init server clock sleeping fetching mbind
         option_bind];
    rewrite ?lookup_insert_eq, ?(proj2 (Z.leb_le _ _)) by lia;
    cbn [andb];
    destruct (ddgFinish toLowerCase query up storedAt sweptAt
                (stamp sentAt s)) as [reply s']; reflexivity.
Qed.

End CaseMap.

(** C8 at a schedule of three searches with distinct, uncached
    queries, arriving at [t], [t + 100] and [t + 200] on a freshly
    started server.  The first finds the gate open and is dispatched at
    [t].  The second and the third both read the stamp [t], sleep until
    [t + 1500], and are dispatched at the same instant: their upstream
    requests are 0 ms apart, not 1500. *)
Theorem throttle_gap_violated :
  let t := 1700000000000 in
  let schedule :=
    [Arrive 0 (js "alpha") t t t;
     Arrive 1 (js "beta") (t + 100) (t + 100) (t + 100);
     Arrive 2 (js "gamma") (t + 200) (t + 200) (t + 200);
     Wake 1 (t + 1500);
     Wake 2 (t + 1500)] in
  sent <$> run asciiLower schedule (init boot t)
  = Some [(0%nat, t); (1%nat, t + 1500); (2%nat, t + 1500)].
Proof. vm_compute. reflexivity. Qed.

End LoopFacts.

(** ** Further properties of the excerpt locator *)

Module ExtractMore.

(** The three outcomes in terms of the two [indexOf] calls. *)
Lemma extractFromText_cases (body excerpt : jsstring) (before after : Z)
    (title pageUrl : jsstring) :
  body ≠ [] →
  extractFromText body excerpt before after title pageUrl =
    if indexOf body excerpt =? -1 then
      if indexOf body (take 40 excerpt) =? -1 then
        Some (NotFound title pageUrl (take 5000 body))
      else
        Some (Found title pageUrl
                (slice body
                   (Z.max 0 (indexOf body (take 40 excerpt) - before))
                   (Z.min (len body)
                      (indexOf body (take 40 excerpt)
                       + len (take 40 excerpt) + after))))
    else
      Some (Found title pageUrl
              (slice body (Z.max 0 (indexOf body excerpt - before))
                 (Z.min (len body)
                    (indexOf body excerpt + len excerpt + after)))).
Proof.
  intros Hne. unfold extractFromText.
  rewrite (ExtractFacts.guard_nonempty _ Hne).
  rewrite ExtractFacts.probe_take, slice_prefix by lia. reflexivity.
Qed.

Lemma indexOf_present s p : ¬ absent s p ↔ indexOf s p ≠ -1.
Proof. by rewrite indexOf_absent. Qed.

(** X1: [extractFromText] answers [null] exactly on an empty body;
    on a non-empty body it answers [Found] exactly when the first 40
    code units of the excerpt occur in the body, and [NotFound]
    exactly when they do not. *)
Theorem extractFromText_outcome (body excerpt : jsstring) (before after : Z)
    (title pageUrl : jsstring) :
  let r := extractFromText body excerpt before after title pageUrl in
  (r = None ↔ body = [])
  ∧ ((∃ x, r = Some (Found title pageUrl x))
     ↔ body ≠ [] ∧ ¬ absent body (take 40 excerpt))
  ∧ (r = Some (NotFound title pageUrl (take 5000 body))
     ↔ body ≠ [] ∧ absent body (take 40 excerpt)).
Proof.
  intros r. subst r. destruct (decide (body = [])) as [->|Hne].
  { cbn. split; [done|]. split; split; try done.
    - intros [x Hx]. discriminate.
    - intros [H _]. done.
    - intros [H _]. done. }
  rewrite (extractFromText_cases _ _ _ _ _ _ Hne).
  assert (absent body (take 40 excerpt) → absent body excerpt) as Hpr.
  { intros Hab i Hocc. apply (Hab i). by apply ExtractFacts.occurs_probe. }
  rewrite !indexOf_absent in *.
  destruct (indexOf body excerpt =? -1) eqn:Ee;
    [apply Z.eqb_eq in Ee | apply Z.eqb_neq in Ee];
    (destruct (indexOf body (take 40 excerpt) =? -1) eqn:Ep;
     [apply Z.eqb_eq in Ep | apply Z.eqb_neq in Ep]);
    (split; [split; [discriminate | done]|]);
    (split; split);
    try (intros [x Hx]; discriminate); try discriminate;
    try (intros [_ H]; done); try (intros _; split; done);
    try (intros; eexists; reflexivity);
    try (exfalso; apply Ee; apply Hpr; done).
Qed.

(** Cutting a segment around the middle part of [pre ++ mid ++ post]. *)
Lemma segment_app (pre mid post : jsstring) (a b : nat) :
  (a ≤ length pre)%nat →
  take ((length pre - a) + length mid + b) (drop a (pre ++ mid ++ post))
  = drop a pre ++ mid ++ take b post.
Proof.
  intros Ha. rewrite drop_app_le by done.
  rewrite take_app_ge by (rewrite length_drop; lia).
  f_equal. rewrite length_drop.
  rewrite take_app_ge by lia. f_equal. f_equal. lia.
Qed.

(** The window of lines 179-181 and 184-186 around a part [mid] of the
    body found at [length pre], for margins that are not negative. *)
Lemma window_around (pre mid post : jsstring) (before after : Z) :
  0 ≤ before → 0 ≤ after →
  slice (pre ++ mid ++ post)
        (Z.max 0 (Z.of_nat (length pre) - before))
        (Z.min (len (pre ++ mid ++ post))
               (Z.of_nat (length pre) + len mid + after))
  = drop (length pre - Z.to_nat before) pre ++ mid
    ++ take (Z.to_nat after) post.
Proof.
  intros Hb Ha.
  rewrite slice_window; [|rewrite !len_app; unfold len; lia|lia].
  rewrite !len_app. unfold len.
  set (a := (length pre - Z.to_nat before)%nat).
  replace (Z.to_nat (Z.max 0 (Z.of_nat (length pre) - before))) with a by lia.
  destruct (decide (Z.to_nat after ≤ length post)%nat) as [Hle|Hgt].
  - replace (Z.to_nat _)
      with ((length pre - a) + length mid + Z.to_nat after)%nat by lia.
    apply segment_app. lia.
  - replace (Z.to_nat _)
      with ((length pre - a) + length mid + length post)%nat by lia.
    rewrite segment_app by lia.
    by rewrite !take_ge by lia.
Qed.

(** X2: when the excerpt is found verbatim and the margins are not
    negative, the extracted text is the excerpt itself with up to
    [before] code units of what precedes it in the body put in front
    and up to [after] code units of what follows it appended. *)
Theorem extractFromText_exact_shape (pre excerpt post : jsstring)
    (before after : Z) (title pageUrl : jsstring) :
  pre ++ excerpt ++ post ≠ [] →
  first_occurrence (pre ++ excerpt ++ post) excerpt (length pre) →
  0 ≤ before → 0 ≤ after →
  extractFromText (pre ++ excerpt ++ post) excerpt before after title pageUrl
  = Some (Found title pageUrl
            (drop (length pre - Z.to_nat before) pre ++ excerpt
             ++ take (Z.to_nat after) post)).
Proof.
  intros Hne Hfirst Hb Ha.
  rewrite (extractFromText_cases _ _ _ _ _ _ Hne).
  rewrite (indexOf_first _ _ _ Hfirst).
  destruct (Z.of_nat (length pre) =? -1) eqn:E; [apply Z.eqb_eq in E; lia|].
  by rewrite window_around.
Qed.

Lemma extractFromText_exact_shape_witness :
  extractFromText (js "lorem ipsum " ++ js "the quick brown fox"
                   ++ js " jumps over")
                  (js "the quick brown fox") 5 100 (js "t") (js "u")
  = Some (Found (js "t") (js "u")
            (js "psum the quick brown fox jumps over")).
Proof.
  rewrite (extractFromText_exact_shape (js "lorem ipsum ")
             (js "the quick brown fox") (js " jumps over") 5 100).
  - reflexivity.
  - discriminate.
  - apply (indexOf_found (js "lorem ipsum the quick brown fox jumps over")
                         (js "the quick brown fox")).
    vm_compute. discriminate.
  - lia.
  - lia.
Defined.

(** X3: when only the first 40 code units of the excerpt are found and
    the margins are not negative, the extracted text is that probe with
    up to [before] code units of what precedes it put in front and up
    to [after] code units of what follows it appended; the rest of the
    excerpt plays no part. *)
Theorem extractFromText_fuzzy_shape (pre excerpt post : jsstring)
    (before after : Z) (title pageUrl : jsstring) :
  absent (pre ++ take 40 excerpt ++ post) excerpt →
  first_occurrence (pre ++ take 40 excerpt ++ post) (take 40 excerpt)
                   (length pre) →
  0 ≤ before → 0 ≤ after →
  extractFromText (pre ++ take 40 excerpt ++ post) excerpt before after
                  title pageUrl
  = Some (Found title pageUrl
            (drop (length pre - Z.to_nat before) pre ++ take 40 excerpt
             ++ take (Z.to_nat after) post)).
Proof.
  intros Habs Hfirst Hb Ha.
  assert (pre ++ take 40 excerpt ++ post ≠ []) as Hne.
  { intros Hnil. rewrite Hnil in Habs. apply (Habs 0%nat).
    apply occurs_at_nil. split; [|done].
    apply app_eq_nil in Hnil as [_ Hnil]. apply app_eq_nil in Hnil as [Hp _].
    destruct excerpt; [done | discriminate]. }
  rewrite (extractFromText_cases _ _ _ _ _ _ Hne).
  apply indexOf_absent in Habs. rewrite Habs. simpl (-1 =? -1). cbv iota.
  rewrite (indexOf_first _ _ _ Hfirst).
  destruct (Z.of_nat (length pre) =? -1) eqn:E; [apply Z.eqb_eq in E; lia|].
  by rewrite window_around.
Qed.

Lemma extractFromText_fuzzy_shape_witness :
  extractFromText
    (js "intro. " ++ take 40 (js "It was the best of times, it was the worst of times; it was")
     ++ js "st of times, it was the age")
    (js "It was the best of times, it was the worst of times; it was") 3 4
    (js "t") (js "u")
  = Some (Found (js "t") (js "u")
            (js "o. It was the best of times, it was the worst o")).
Proof.
  rewrite (extractFromText_fuzzy_shape (js "intro. ")
             (js "It was the best of times, it was the worst of times; it was")
             (js "st of times, it was the age") 3 4).
  - reflexivity.
  - apply indexOf_absent. vm_compute. reflexivity.
  - apply (indexOf_found
             (js "intro. It was the best of times, it was the worst of times, it was the age")
             (take 40 (js "It was the best of times, it was the worst of times; it was"))).
    vm_compute. discriminate.
  - lia.
  - lia.
Defined.

(** A slice is a contiguous part of the string. *)
Lemma slice_within s a b : within (slice s a b) s.
Proof.
  unfold slice, within.
  set (k := Z.to_nat _). set (n := Z.to_nat _).
  exists (take n s), (drop k (drop n s)).
  by rewrite take_drop, take_drop.
Qed.

(** Between positions that are not negative a slice is no longer than
    their distance. *)
Lemma slice_len_le s a b :
  0 ≤ a → 0 ≤ b → len (slice s a b) ≤ Z.max 0 (b - a).
Proof.
  intros Ha Hb. unfold slice, len.
  destruct (a <? 0) eqn:Ea; [lia|]. destruct (b <? 0) eqn:Eb; [lia|].
  rewrite length_take, length_drop.
  pose proof (len_nonneg s). unfold len in *. lia.
Qed.

(** X4: whatever the arguments, a [Found] result carries the title and
    url it was given and a text that is a contiguous part of the body;
    with margins that are not negative that text has at most
    [before + len(excerpt) + after] code units. *)
Theorem extractFromText_found_bounds (body excerpt : jsstring)
    (before after : Z) (title pageUrl t u x : jsstring) :
  extractFromText body excerpt before after title pageUrl
    = Some (Found t u x) →
  t = title ∧ u = pageUrl ∧ within x body
  ∧ (0 ≤ before → 0 ≤ after → len x ≤ before + len excerpt + after).
Proof.
  intros Hr. destruct (decide (body = [])) as [->|Hne]; [discriminate|].
  rewrite (extractFromText_cases _ _ _ _ _ _ Hne) in Hr.
  assert (len (take 40 excerpt) ≤ len excerpt) as Hprobe.
  { unfold len. rewrite length_take. lia. }
  pose proof (len_nonneg excerpt) as He.
  pose proof (len_nonneg (take 40 excerpt)) as Hp.
  pose proof (indexOf_range body excerpt) as Hie.
  pose proof (indexOf_range body (take 40 excerpt)) as Hip.
  destruct (indexOf body excerpt =? -1) eqn:Ee;
    [apply Z.eqb_eq in Ee | apply Z.eqb_neq in Ee].
  - destruct (indexOf body (take 40 excerpt) =? -1) eqn:Ep;
      [discriminate | apply Z.eqb_neq in Ep].
    simplify_eq. repeat split; [apply slice_within|].
    intros Hb Ha. etrans; [apply slice_len_le; unfold len; lia|]. lia.
  - simplify_eq. repeat split; [apply slice_within|].
    intros Hb Ha. etrans; [apply slice_len_le; unfold len; lia|]. lia.
Qed.

Lemma extractFromText_found_bounds_witness :
  len (js "psum the quick brown fox jump") ≤ 5 + len (js "the quick brown fox") + 5.
Proof.
  apply (extractFromText_found_bounds
           (js "lorem ipsum the quick brown fox jumps over")
           (js "the quick brown fox") 5 5 (js "t") (js "u")
           (js "t") (js "u")); [reflexivity | lia | lia].
Defined.

(** X5: the empty excerpt is found at index 0 of every non-empty body;
    with margins that are not negative the extracted text is the first
    [after] code units of the body, whatever [before] is. *)
Theorem extractFromText_empty_excerpt (body : jsstring) (before after : Z)
    (title pageUrl : jsstring) :
  body ≠ [] → 0 ≤ before → 0 ≤ after →
  extractFromText body [] before after title pageUrl
  = Some (Found title pageUrl (take (Z.to_nat after) body)).
Proof.
  intros Hne Hb Ha.
  pose proof (window_around [] [] body before after Hb Ha) as Hw.
  rewrite (extractFromText_cases _ _ _ _ _ _ Hne).
  assert (indexOf body [] = 0) as ->.
  { apply (indexOf_first body [] 0). split; [by exists [], body | lia]. }
  simpl (0 =? -1). cbv iota. do 2 f_equal. exact Hw.
Qed.

Lemma extractFromText_empty_excerpt_witness :
  extractFromText (js "lorem ipsum") [] 500 5 (js "t") (js "u")
  = Some (Found (js "t") (js "u") (js "lorem")).
Proof.
  rewrite extractFromText_empty_excerpt; [reflexivity | discriminate | lia | lia].
Defined.

End ExtractMore.

(** ** Further properties of the extraction engine and the pool *)

Module EngineMore.

Lemma trimStart_blank s : blank s → trimStart s = [].
Proof.
  induction 1 as [|c s Hc _ IH]; [done|]. simpl. by rewrite Hc.
Qed.

(** Text made of white space only trims to the empty string. *)
Lemma trim_blank s : blank s → trim s = [].
Proof.
  intros H. unfold trim, trimEnd. by rewrite (trimStart_blank _ H).
Qed.

(** X6: the fast path never hands out a [NotFound]: a result it
    returns is a [Found] for a successful response, carrying the
    trimmed page title, the requested url, and a text that is a
    contiguous part of the trimmed page text. *)
Theorem extractFast_only_found (url excerpt : jsstring) (before after : Z)
    (reply : HttpReply) (r : ExtractionResult) :
  extractFast url excerpt before after reply = Returns (Some r) →
  ∃ doc x, reply = Response true (Some doc)
           ∧ r = Found (fastTitle doc) url x
           ∧ within x (fastBody doc).
Proof.
  destruct reply as [|[] [doc|]]; try discriminate. simpl.
  destruct (extractFromText (fastBody doc) excerpt before after
              (fastTitle doc) url) as [[t u x|t u x]|] eqn:E;
    try discriminate.
  simpl. intros ?; simplify_eq.
  destruct (decide (fastBody doc = [])) as [Hnil|Hne].
  { rewrite Hnil in E. discriminate. }
  rewrite (ExtractMore.extractFromText_cases _ _ _ _ _ _ Hne) in E.
  exists doc, x.
  destruct (indexOf (fastBody doc) excerpt =? -1);
    [destruct (indexOf (fastBody doc) (take 40 excerpt) =? -1);
       [discriminate|]|];
    simplify_eq; (split; [done|]); (split; [done|]);
    apply ExtractMore.slice_within.
Qed.

Lemma extractFast_only_found_witness :
  ∃ doc x,
    Response true (Some (mkDocument (js " T ") [] (js "a fox b")))
      = Response true (Some doc)
    ∧ Found (js "T") (js "http://a/") (js " fox b")
      = Found (fastTitle doc) (js "http://a/") x
    ∧ within x (fastBody doc).
Proof.
  apply (extractFast_only_found (js "http://a/") (js "fox") 1 2).
  reflexivity.
Defined.

(** X7: a landmark element ([article], [main], [role=main]) whose text
    is non-empty but only white space shadows the [body] text: the fast
    path answers [null] whatever the body holds. *)
Theorem extractFast_blank_landmark (url excerpt : jsstring) (before after : Z)
    (doc : Document) :
  landmarkText doc ≠ [] → blank (landmarkText doc) →
  extractFast url excerpt before after (Response true (Some doc))
  = Returns None.
Proof.
  intros Hne Hblank. unfold extractFast, fastBody.
  apply truthy_true in Hne. rewrite Hne, (trim_blank _ Hblank). reflexivity.
Qed.

Lemma extractFast_blank_landmark_witness :
  extractFast (js "http://a/") (js "fox") 500 1000
    (Response true (Some (mkDocument (js "T") (js "  ") (js "a fox b"))))
  = Returns None.
Proof.
  apply extractFast_blank_landmark; [discriminate|].
  repeat constructor.
Defined.

(** Whatever it returns, [extractFromText] passes the url through. *)
Lemma extractFromText_url (body excerpt : jsstring) (before after : Z)
    (title pageUrl : jsstring) (r : ExtractionResult) :
  extractFromText body excerpt before after title pageUrl = Some r →
  resultUrl r = pageUrl.
Proof.
  unfold extractFromText.
  repeat match goal with |- context [if ?b then _ else _] => destruct b end;
    intros ?; by simplify_eq.
Qed.

Lemma extractFast_found_url (url excerpt : jsstring) (before after : Z)
    (reply : HttpReply) (r : ExtractionResult) :
  extractFast url excerpt before after reply = Returns (Some r) →
  found r = true ∧ resultUrl r = url.
Proof.
  destruct reply as [|[] [doc|]]; try discriminate. simpl.
  destruct (extractFromText _ _ _ _ _ _) as [r'|] eqn:E; [|discriminate].
  destruct (found r') eqn:Ef; [|discriminate].
  intros ?; simplify_eq. split; [done|]. by eapply extractFromText_url.
Qed.

(** X8: every entry of a batch answer is a [Found] for the url of one
    of the items, and there are no more entries than items. *)
Theorem extractBatch_entries (items : list (Item * HttpReply))
    (before after : option Z) :
  Forall (fun r => found r = true
                   ∧ ∃ item reply, (item, reply) ∈ items
                                   ∧ resultUrl r = Engine.url item)
         (extractBatch items before after)
  ∧ (length (extractBatch items before after) ≤ length items)%nat.
Proof.
  unfold extractBatch, filterBoolean.
  induction items as [|[item reply] items [IHf IHl]]; [split; [constructor|done]|].
  cbn [fmap list_fmap omap list_omap].
  assert (Forall (fun r => found r = true
                   ∧ ∃ item0 reply0, (item0, reply0) ∈ (item, reply) :: items
                                     ∧ resultUrl r = Engine.url item0)
            (omap id
               ((fun r => match r with Returns (Some v) => Some v | _ => None end)
                <$> ((fun '(item, reply) =>
                        extractFast (Engine.url item) (excerpt item)
                          (nullish (charsBefore item) (nullish before 500))
                          (nullish (charsAfter item) (nullish after 1000))
                          reply) <$> items)))) as IHf'.
  { eapply Forall_impl; [exact IHf|]. intros r (Hf & it & rp & Hin & Hu).
    split; [done|]. exists it, rp. split; [by right | done]. }
  destruct (extractFast _ _ _ _ reply) as [[v|]|] eqn:E; simpl.
  - split; [|simpl in IHl; lia]. constructor; [|exact IHf'].
    apply extractFast_found_url in E as [Hf Hu].
    split; [done|]. exists item, reply. split; [by left | done].
  - split; [exact IHf' | simpl in IHl; lia].
  - split; [exact IHf' | simpl in IHl; lia].
Qed.

End EngineMore.

(** ** Further properties of the session pool *)

Module PoolMore.

(** What a call of [getSession] can do to the manager: nothing to the
    map, or one new entry with the two handles issued last. *)
Lemma getSession_effect userId fault m :
  let m' := (getSession userId fault m).2 in
  (contexts m ≤ contexts m')%nat ∧ (pages m ≤ pages m')%nat
  ∧ browser m' = browser m
  ∧ (sessions m' = sessions m
     ∨ (sessions m !! userId = None
        ∧ (getSession userId fault m).1
          = Returns (mkSession (contexts m) (pages m))
        ∧ sessions m'
          = <[userId := mkSession (contexts m) (pages m)]> (sessions m)
        ∧ contexts m' = S (contexts m) ∧ pages m' = S (pages m))).
Proof.
  unfold getSession.
  destruct (sessions m !! userId) as [s0|] eqn:E; [simpl; eauto 10|].
  destruct (browser m) eqn:Eb; [|simpl; eauto 10].
  repeat case_decide; simpl; try (rewrite ?Eb; split_and!; eauto; lia).
  rewrite Eb. split_and!; [lia | lia | done |]. right. done.
Qed.

Lemma wellFormed_grow m m' :
  wellFormed m → sessions m' = sessions m →
  (contexts m ≤ contexts m')%nat → (pages m ≤ pages m')%nat →
  wellFormed m'.
Proof.
  intros [Ha Hb] Hs Hc Hp. split.
  - intros u s Hu. rewrite Hs in Hu. destruct (Ha u s Hu). lia.
  - intros u v s s' Hne Hu Hv. rewrite Hs in Hu, Hv.
    exact (Hb u v s s' Hne Hu Hv).
Qed.

Lemma wellFormed_create : wellFormed create.
Proof. split; intros *; simpl; by rewrite ?lookup_empty. Qed.

Lemma wellFormed_getSession userId fault m :
  wellFormed m → wellFormed (getSession userId fault m).2.
Proof.
  intros Hwf.
  destruct (getSession_effect userId fault m)
    as (Hc & Hp & _ & [Hs | (Hnone & _ & Hs & Hc' & Hp')]).
  { by eapply wellFormed_grow. }
  destruct Hwf as [Ha Hb]. split.
  - intros u s. rewrite Hs, Hc', Hp'. intros Hu.
    apply lookup_insert_Some in Hu as [[<- <-]|[Hne Hu]]; simpl; [lia|].
    destruct (Ha u s Hu). lia.
  - intros u v s s'. rewrite Hs. intros Hne Hu Hv.
    apply lookup_insert_Some in Hu as [[<- <-]|[Hneu Hu]];
      apply lookup_insert_Some in Hv as [[<- <-]|[Hnev Hv]]; simpl;
      try done.
    + destruct (Ha v s' Hv). lia.
    + destruct (Ha u s Hu). lia.
    + exact (Hb u v s s' Hne Hu Hv).
Qed.

Lemma wellFormed_destroy userId closes m :
  wellFormed m → wellFormed (destroy userId closes m).2.
Proof.
  intros [Ha Hb]. unfold destroy.
  destruct (sessions m !! userId) as [s0|] eqn:E; [|done].
  destruct closes; [|done]. split; simpl.
  - intros u s Hu. apply lookup_delete_Some in Hu as [_ Hu]. by eapply Ha.
  - intros u v s s' Hne Hu Hv.
    apply lookup_delete_Some in Hu as [_ Hu].
    apply lookup_delete_Some in Hv as [_ Hv].
    exact (Hb u v s s' Hne Hu Hv).
Qed.

Lemma wellFormed_browserPath url excerpt before after userId br m :
  wellFormed m →
  wellFormed (browserPath url excerpt before after userId br m).2.
Proof.
  intros Hwf. apply (wellFormed_getSession userId (sessionFault br)) in Hwf.
  unfold browserPath.
  destruct (getSession userId (sessionFault br) m) as [[s|] m1]; [|done].
  simpl in Hwf. destruct (pageOpens br); [|done]. simpl.
  destruct (pageReply br); simpl;
    (eapply wellFormed_grow; [exact Hwf | done | simpl; lia | simpl; lia]).
Qed.

Lemma wellFormed_apply op m : wellFormed m → wellFormed (apply op m).
Proof.
  intros Hwf. destruct op as [ok|u f|u c|url ex cb ca u reply br]; simpl.
  - destruct ok; [|done]. by eapply wellFormed_grow.
  - by apply wellFormed_getSession.
  - by apply wellFormed_destroy.
  - unfold extractOneUrl.
    destruct (extractFast url ex cb ca reply) as [[r|]|]; try done.
    by apply wellFormed_browserPath.
Qed.

Lemma wellFormed_reachable m : reachable m → wellFormed m.
Proof.
  intros [ops ->]. unfold Engine.run.
  generalize wellFormed_create. generalize create.
  induction ops as [|op ops IH]; intros m Hwf; [done|].
  simpl. apply IH. by apply wellFormed_apply.
Qed.



(** X10: a [getSession] that rejects leaves the [sessions] map as it
    was; a browsing context it had created by then stays open: it is
    neither stored in the map nor closed. *)
Theorem getSession_failure (userId : jsstring) (fault : Fault)
    (m m' : Manager) :
  getSession userId fault m = (Throws, m') →
  sessions m' = sessions m
  ∧ sessions m !! userId = None
  ∧ (m' = m
     ∨ (contexts m' = S (contexts m)
        ∧ NewContext (contexts m) ∈ calls m'
        ∧ (CloseContext (contexts m) ∈ calls m'
           → CloseContext (contexts m) ∈ calls m))).
Proof.
  unfold getSession.
  destruct (sessions m !! userId) as [s0|] eqn:E; [discriminate|].
  destruct (browser m) eqn:Eb.
  2:{ intros ?; simplify_eq. eauto. }
  unfold newContext, newPage.
  repeat case_decide; simpl; intros ?; simplify_eq; simpl;
    (split; [done|]); (split; [done|]); try (by left);
    right; (split; [done|]);
    rewrite !elem_of_app, !list_elem_of_singleton;
    (split; [intuition | intuition congruence]).
Qed.

Lemma getSession_failure_witness :
  let m := (start true create).2 in
  sessions (getSession (js "alice") NewPageFails m).2 = sessions m.
Proof.
  intros m.
  destruct (getSession (js "alice") NewPageFails m) as [o m'] eqn:E.
  apply (getSession_failure (js "alice") NewPageFails m m').
  vm_compute in E. simplify_eq. vm_compute. reflexivity.
Defined.

(** X11: once the browser path has its session and its page, that page
    is closed before the path returns, whether navigation and
    evaluation succeed or reject; in between only that page is
    navigated and evaluated, never the page kept in the session. *)
Theorem browserPath_closes_page (url excerpt : jsstring) (before after : Z)
    (userId : jsstring) (br : BrowserRun) (m m1 : Manager) (s : Session) :
  reachable m →
  getSession userId (sessionFault br) m = (Returns s, m1) →
  pageOpens br = true →
  page s ≠ pages m1
  ∧ ∃ mid,
      calls (browserPath url excerpt before after userId br m).2
      = calls m1 ++ [NewPage (context s) (pages m1)] ++ mid
        ++ [ClosePage (pages m1)]
      ∧ ∀ c, c ∈ mid → c = Goto (pages m1) url ∨ c = Evaluate (pages m1).
Proof.
  intros Hreach Hget Hopen. split.
  - apply wellFormed_reachable in Hreach.
    apply (wellFormed_getSession userId (sessionFault br)) in Hreach.
    rewrite Hget in Hreach. simpl in Hreach. destruct Hreach as [Ha _].
    apply getSession_returns in Hget. destruct (Ha _ _ Hget). lia.
  - unfold browserPath. rewrite Hget, Hopen. simpl.
    destruct (pageReply br); simpl.
    + exists []. split; [by rewrite <- !(assoc_L (++))|].
      intros c Hc. by apply elem_of_nil in Hc.
    + exists [Goto (pages m1) url]. split; [by rewrite <- !(assoc_L (++))|].
      intros c Hc. apply list_elem_of_singleton in Hc. by left.
    + exists [Goto (pages m1) url; Evaluate (pages m1)].
      split; [by rewrite <- !(assoc_L (++))|].
      intros c Hc. apply elem_of_cons in Hc as [->|Hc]; [by left|].
      apply list_elem_of_singleton in Hc. by right.
Qed.

Lemma browserPath_closes_page_witness :
  let m := (start true create).2 in
  let br := mkBrowserRun NoFault true GotoRejected in
  page (mkSession 0 0) ≠ pages (getSession (js "alice") NoFault m).2.
Proof.
  intros m br.
  apply (browserPath_closes_page (js "http://a/") (js "x") 500 1000
           (js "alice") br m (getSession (js "alice") NoFault m).2
           (mkSession 0 0)).
  - by exists [OpStart true].
  - reflexivity.
  - reflexivity.
Defined.

(** X12: [extractOneUrl] touches no session but the caller's: every
    other user's entry in the pool is after the call what it was
    before. *)
Theorem extractOneUrl_other_users (url excerpt : jsstring) (before after : Z)
    (userId : jsstring) (reply : HttpReply) (br : BrowserRun) (m : Manager)
    (u : jsstring) :
  u ≠ userId →
  sessions (extractOneUrl url excerpt before after userId reply br m).2 !! u
  = sessions m !! u.
Proof.
  intros Hne. unfold extractOneUrl.
  destruct (extractFast url excerpt before after reply) as [[r|]|]; try done.
  unfold browserPath.
  destruct (getSession_effect userId (sessionFault br) m)
    as (_ & _ & _ & Hs).
  destruct (getSession userId (sessionFault br) m) as [[s|] m1]; simpl in *.
  - assert (sessions m1 !! u = sessions m !! u) as <-.
    { destruct Hs as [->|(_ & _ & -> & _)]; [done|].
      by rewrite lookup_insert_ne. }
    destruct (pageOpens br); [|done]. simpl. by destruct (pageReply br).
  - destruct Hs as [->|(_ & Hret & _)]; [done | discriminate].
Qed.

Lemma extractOneUrl_other_users_witness :
  let m := (getSession (js "bob") NoFault (start true create).2).2 in
  sessions (extractOneUrl (js "http://a/") (js "x") 500 1000 (js "alice")
              FetchRejected (mkBrowserRun NoFault true GotoRejected) m).2
  !! js "bob" = sessions m !! js "bob".
Proof. intros m. apply extractOneUrl_other_users. discriminate. Defined.

(** X13: [destroy] closes the user's context and forgets the session;
    a session the user gets afterwards has a context and a page that
    are not the destroyed ones. *)
Theorem destroy_then_getSession (userId : jsstring) (fault : Fault)
    (m m1 : Manager) (s : Session) :
  reachable m →
  getSession userId fault m = (Returns s, m1) →
  let m2 := (destroy userId true m1).2 in
  sessions m2 !! userId = None
  ∧ CloseContext (context s) ∈ calls m2
  ∧ ∀ fault' s' m3,
      getSession userId fault' m2 = (Returns s', m3) →
      context s' ≠ context s ∧ page s' ≠ page s.
Proof.
  intros Hreach Hget m2.
  apply wellFormed_reachable in Hreach.
  apply (wellFormed_getSession userId fault) in Hreach.
  rewrite Hget in Hreach. simpl in Hreach. destruct Hreach as [Ha _].
  apply getSession_returns in Hget as Hs. destruct (Ha _ _ Hs) as [Hc Hp].
  assert (destroy userId true m1
          = (Returns (), deleteSession userId
                           (did (CloseContext (context s)) m1))) as Hd.
  { unfold destroy. by rewrite Hs. }
  subst m2. rewrite Hd. simpl. split; [apply lookup_delete_eq|].
  split; [apply elem_of_app; right; by apply list_elem_of_singleton|].
  intros fault' s' m3 Hget'.
  destruct (getSession_effect userId fault'
              (deleteSession userId (did (CloseContext (context s)) m1)))
    as (_ & _ & _ & Heff).
  rewrite Hget' in Heff. simpl in Heff.
  apply getSession_returns in Hget' as Hs'.
  destruct Heff as [Hsame | (_ & Hret & _)].
  - rewrite Hsame, lookup_delete_eq in Hs'. discriminate.
  - simplify_eq. simpl. lia.
Qed.

Lemma destroy_then_getSession_witness :
  let m := (start true create).2 in
  let m1 := (getSession (js "alice") NoFault m).2 in
  sessions (destroy (js "alice") true m1).2 !! js "alice" = None.
Proof.
  intros m m1.
  apply (destroy_then_getSession (js "alice") NoFault m m1 (mkSession 0 0)).
  - by exists [OpStart true].
  - reflexivity.
Defined.

(** X14: the session count that [/health] reports grows by one when
    [getSession] creates a session, stays when it returns a cached one
    or rejects, and drops by one when [destroy] forgets a session. *)
Theorem health_counts (userId : jsstring) (fault : Fault) (closes : bool)
    (m : Manager) :
  health (getSession userId fault m).2
  = (match sessions m !! userId, (getSession userId fault m).1 with
     | None, Returns _ => S (health m)
     | _, _ => health m
     end)
  ∧ health (destroy userId closes m).2
    = (match sessions m !! userId with
       | Some _ => if closes then pred (health m) else health m
       | None => health m
       end).
Proof.
  unfold health. split.
  - destruct (getSession_effect userId fault m) as (_ & _ & _ & Heff).
    destruct (sessions m !! userId) as [s0|] eqn:E.
    + destruct Heff as [->|(? & _)]; [done | discriminate].
    + destruct Heff as [Hs|(_ & Hret & -> & _)].
      * destruct (getSession userId fault m).1 eqn:Er; [|by rewrite Hs].
        exfalso. destruct (getSession userId fault m) as [o m'] eqn:Eg.
        simpl in *. subst o. apply getSession_returns in Eg.
        rewrite Hs in Eg. congruence.
      * rewrite Hret. by apply map_size_insert_None.
  - unfold destroy. destruct (sessions m !! userId) as [s0|] eqn:E; [|done].
    destruct closes; [|done]. simpl. by erewrite map_size_delete_Some.
Qed.

(** X15: what [extractOneUrl] returns is either the fast path's [Found],
    carrying the requested url and leaving the pool untouched, or the
    browser path's answer: the locator's result on the rendered text
    with the rendered page's own title and url, or a [NotFound] with an
    empty [fullText] when the rendered text is empty; in that case the
    user has a session in the pool afterwards. *)
Theorem extractOneUrl_result (url excerpt : jsstring) (before after : Z)
    (userId : jsstring) (reply : HttpReply) (br : BrowserRun)
    (m m' : Manager) (r : ExtractionResult) :
  extractOneUrl url excerpt before after userId reply br m = (Returns r, m') →
  (found r = true ∧ resultUrl r = url ∧ m' = m)
  ∨ (∃ body title pageUrl,
       pageReply br = Rendered body title pageUrl
       ∧ resultUrl r = pageUrl
       ∧ r = default (NotFound title pageUrl [])
               (extractFromText body excerpt before after title pageUrl)
       ∧ is_Some (sessions m' !! userId)).
Proof.
  unfold extractOneUrl.
  destruct (extractFast url excerpt before after reply) as [[fast|]|] eqn:Ef;
    [| |discriminate].
  { intros ?; simplify_eq. left.
    apply EngineMore.extractFast_found_url in Ef as [? ?]. done. }
  unfold browserPath.
  destruct (getSession userId (sessionFault br) m) as [[s|] m1] eqn:Eg;
    [|discriminate].
  apply getSession_returns in Eg.
  destruct (pageOpens br); [|discriminate]. simpl.
  destruct (pageReply br) as [| |body title pageUrl]; try discriminate.
  intros ?; simplify_eq. right. exists body, title, pageUrl.
  split; [done|]. split; [|split; [done | by eexists]].
  destruct (extractFromText body excerpt before after title pageUrl)
    as [r|] eqn:Er; [|done].
  by eapply EngineMore.extractFromText_url.
Qed.

Lemma extractOneUrl_result_witness :
  let m := (start true create).2 in
  let br := mkBrowserRun NoFault true
              (Rendered (js "hello zzz") (js "Title") (js "http://b/")) in
  let call := extractOneUrl (js "http://a/") (js "zzz") 1 1 (js "alice")
                FetchRejected br m in
  call.1 = Returns (Found (js "Title") (js "http://b/") (js " zzz"))
  ∧ ((found (Found (js "Title") (js "http://b/") (js " zzz")) = true
      ∧ resultUrl (Found (js "Title") (js "http://b/") (js " zzz"))
        = js "http://a/"
      ∧ call.2 = m)
     ∨ (∃ body title pageUrl,
          pageReply br = Rendered body title pageUrl
          ∧ resultUrl (Found (js "Title") (js "http://b/") (js " zzz"))
            = pageUrl
          ∧ Found (js "Title") (js "http://b/") (js " zzz")
            = default (NotFound title pageUrl [])
                (extractFromText body (js "zzz") 1 1 title pageUrl)
          ∧ is_Some (sessions call.2 !! js "alice"))).
Proof.
  intros m br call. split; [reflexivity|].
  apply (extractOneUrl_result (js "http://a/") (js "zzz") 1 1 (js "alice")
           FetchRejected br m call.2).
  reflexivity.
Defined.

(** [getSession] is line 27 followed, when it finds nothing, by the
    creation. *)
Lemma getSession_split userId fault m :
  getSession userId fault m
  = match Overlap.getSessionCheck userId m with
    | Some s => (Returns s, m)
    | None => Overlap.getSessionCreate userId fault m
    end.
Proof. reflexivity. Qed.

(** X16: when two calls of [getSession] for the same new user both
    pass line 27 before either has stored its session, each creates a
    context and a page of its own; the map ends up with the second
    session, and the first context is left open, held by no entry of
    the map. *)
Theorem getSession_overlap (userId : jsstring) (m : Manager) :
  is_Some (browser m) →
  Overlap.getSessionCheck userId m = None →
  let first := Overlap.getSessionCreate userId NoFault m in
  let second := Overlap.getSessionCreate userId NoFault first.2 in
  first.1 = Returns (mkSession (contexts m) (pages m))
  ∧ second.1 = Returns (mkSession (S (contexts m)) (S (pages m)))
  ∧ sessions second.2
    = <[userId := mkSession (S (contexts m)) (S (pages m))]> (sessions m)
  ∧ NewContext (contexts m) ∈ calls second.2
  ∧ (CloseContext (contexts m) ∈ calls second.2
     → CloseContext (contexts m) ∈ calls m)
  ∧ (wellFormed m →
     ∀ u s, sessions second.2 !! u = Some s → context s ≠ contexts m).
Proof.
  intros [b Hb] Hcheck first second. subst first second.
  unfold Overlap.getSessionCreate. rewrite Hb. simpl. rewrite Hb. simpl.
  split; [done|]. split; [done|]. split; [by rewrite insert_insert_eq|].
  split.
  { rewrite !elem_of_app, !list_elem_of_singleton. intuition. }
  split.
  { rewrite !elem_of_app, !list_elem_of_singleton. intuition congruence. }
  intros [Ha _] u s. rewrite insert_insert_eq. intros Hu.
  apply lookup_insert_Some in Hu as [[_ <-]|[_ Hu]]; simpl; [lia|].
  destruct (Ha u s Hu). lia.
Qed.

Lemma getSession_overlap_witness :
  let m := (start true create).2 in
  sessions (Overlap.getSessionCreate (js "alice") NoFault
              (Overlap.getSessionCreate (js "alice") NoFault m).2).2
  = <[js "alice" := mkSession 1 1]> (sessions m).
Proof.
  intros m. apply (getSession_overlap (js "alice") m).
  - by eexists.
  - reflexivity.
Defined.

(** C10 at a failing schedule: on a launched manager two calls of
    [getSession] for the new user [alice] both run line 27 and find
    nothing.  The first goes on to its end: it returns the session of
    context 0 and page 0 and caches it.  The second, already past line
    27, then creates context 1 and page 1 and stores its own session
    over the cached one at line 62.  No [destroy] ran and no context
    was closed, yet the entry the first call cached is gone: every
    later [getSession] returns the second session, not the first. *)
Theorem getSession_overlap_replaces :
  let m := (start true create).2 in
  let first := Overlap.getSessionCreate (js "alice") NoFault m in
  let second := Overlap.getSessionCreate (js "alice") NoFault first.2 in
  Overlap.getSessionCheck (js "alice") m = None
  ∧ first.1 = Returns (mkSession 0 0)
  ∧ sessions first.2 !! js "alice" = Some (mkSession 0 0)
  ∧ second.1 = Returns (mkSession 1 1)
  ∧ sessions second.2 !! js "alice" = Some (mkSession 1 1)
  ∧ getSession (js "alice") NoFault second.2
    = (Returns (mkSession 1 1), second.2)
  ∧ calls second.2
    = [Launch 0; NewContext 0; AddInitScript 0; NewPage 0 0; Route 0;
       NewContext 1; AddInitScript 1; NewPage 1 1; Route 1].
Proof. vm_compute. done. Qed.

End PoolMore.

(** ** Further properties of the scraped backend's parser *)

Module ParseMore.

(** The loop only ever appends, and what it appends is read off the
    blocks in their order. *)
Lemma eachResult_appends blocks results seen :
  ∃ added, eachResult blocks results seen = results ++ added
           ∧ added `sublist_of` (toResult <$> blocks).
Proof.
  revert results seen. induction blocks as [|el rest IH]; intros results seen.
  { exists []. by rewrite app_nil_r. }
  cbn [eachResult fmap list_fmap].
  destruct (10 <=? length results)%nat.
  { exists []. split; [by rewrite app_nil_r | apply sublist_nil_l]. }
  destruct (_ || _).
  { destruct (IH results seen) as (added & -> & Hsub).
    exists added. split; [done | by apply sublist_cons]. }
  destruct (negb _).
  { destruct (IH results ({[orEmpty (href el)]} ∪ seen))
      as (added & -> & Hsub).
    exists added. split; [done | by apply sublist_cons]. }
  destruct (IH (results ++ [mkResult (trim (text (anchorText el)))
                              (orEmpty (href el))
                              (trim (text (snippetText el)))])
               ({[orEmpty (href el)]} ∪ seen)) as (added & -> & Hsub).
  exists (toResult el :: added). split.
  - by rewrite <- (assoc_L (++)).
  - by apply sublist_skip.
Qed.

(** X17: the parsed results keep the order of the upstream page: they
    are the results of some of its blocks, in the order of the
    blocks. *)
Theorem parseResults_in_order (blocks : list ResultBlock) :
  parseResults blocks `sublist_of` (toResult <$> blocks).
Proof.
  unfold parseResults.
  destruct (eachResult_appends blocks [] ∅) as (added & -> & Hsub). done.
Qed.

Lemma eachResult_all_good blocks :
  ∀ results seen,
    (length results ≤ 10)%nat →
    Forall (fun el => linkOk el = true ∧ titled el = true
                      ∧ orEmpty (href el) ∉ seen) blocks →
    NoDup ((fun el => orEmpty (href el)) <$> blocks) →
    eachResult blocks results seen
    = results ++ take (10 - length results) (toResult <$> blocks).
Proof.
  induction blocks as [|el rest IH]; intros results seen Hlen Hall Hnd.
  { cbn [eachResult fmap list_fmap]. by rewrite take_nil, app_nil_r. }
  cbn [eachResult fmap list_fmap].
  apply Forall_cons in Hall as [(Hlink & Htitle & Hunseen) Hall].
  apply NoDup_cons in Hnd as [Hfresh Hnd].
  destruct (10 <=? length results)%nat eqn:Efull.
  { apply Nat.leb_le in Efull.
    replace (10 - length results)%nat with 0%nat by lia.
    by rewrite app_nil_r. }
  apply Nat.leb_gt in Efull.
  unfold linkOk in Hlink. apply andb_true_iff in Hlink as [-> Had].
  apply negb_true_iff in Had. rewrite Had.
  rewrite bool_decide_eq_false_2 by done. cbn [negb orb].
  unfold titled in Htitle. rewrite Htitle. cbn [negb].
  rewrite IH; [| rewrite length_app; simpl; lia | | done].
  - rewrite length_app. simpl. rewrite <- (assoc_L (++)). f_equal.
    replace (10 - length results)%nat
      with (S (10 - (length results + 1)))%nat by lia.
    reflexivity.
  - apply Forall_forall. intros el' Hin.
    rewrite Forall_forall in Hall. destruct (Hall el' Hin) as (Hl & Ht & Hu).
    split; [done|]. split; [done|].
    intros Hel. apply elem_of_union in Hel as [Hel|Hel]; [|done].
    apply elem_of_singleton in Hel. apply Hfresh.
    rewrite <- Hel. apply list_elem_of_fmap. by exists el'.
Qed.

(** X18: when every block has an acceptable link and a title and no two
    blocks share a link, the parser keeps exactly the first ten, in
    order. *)
Theorem parseResults_first_ten (blocks : list ResultBlock) :
  Forall (fun el => linkOk el = true ∧ titled el = true) blocks →
  NoDup ((fun el => orEmpty (href el)) <$> blocks) →
  parseResults blocks = take 10 (toResult <$> blocks).
Proof.
  intros Hall Hnd. unfold parseResults.
  rewrite eachResult_all_good; [done | simpl; lia | | done].
  eapply Forall_impl; [exact Hall|]. intros el [Hl Ht].
  split; [done|]. split; [done|]. apply not_elem_of_empty.
Qed.

Lemma parseResults_first_ten_witness :
  parseResults
    [mkBlock (Some (js "https://a.example/")) (Some (js "A")) None;
     mkBlock (Some (js "https://b.example/")) (Some (js " B ")) (Some (js "b"))]
  = [mkResult (js "A") (js "https://a.example/") [];
     mkResult (js "B") (js "https://b.example/") (js "b")].
Proof.
  rewrite parseResults_first_ten.
  - reflexivity.
  - repeat constructor.
  - cbn [fmap list_fmap]. apply NoDup_cons. split; [|apply NoDup_singleton].
    intros Hin. apply list_elem_of_singleton in Hin. discriminate.
Defined.

(** A link that is [seen] and not among the results never gets in. *)
Lemma eachResult_seen_stays_out u blocks :
  ∀ results seen,
    u ∈ seen → u ∉ url <$> results →
    u ∉ url <$> eachResult blocks results seen.
Proof.
  induction blocks as [|el rest IH]; intros results seen Hseen Hout; [done|].
  cbn [eachResult].
  destruct (10 <=? length results)%nat; [done|].
  destruct (_ || _) eqn:Eskip; [by apply IH|].
  apply orb_false_iff in Eskip as [_ Hunseen].
  apply bool_decide_eq_false in Hunseen.
  destruct (negb _).
  { apply IH; [|done]. by apply elem_of_union_r. }
  apply IH; [by apply elem_of_union_r|].
  rewrite fmap_app. intros Hin. apply elem_of_app in Hin as [Hin|Hin]; [done|].
  simpl in Hin. apply list_elem_of_singleton in Hin. by subst.
Qed.

(** X19: a link whose first block has an empty title is lost: the link
    is marked as seen before the title is looked at, so no later block
    with the same link gives a result either. *)
Theorem parseResults_untitled_link_lost (pre post : list ResultBlock)
    (el : ResultBlock) :
  linkOk el = true → titled el = false →
  Forall (fun el' => orEmpty (href el') ≠ orEmpty (href el)) pre →
  orEmpty (href el) ∉ url <$> parseResults (pre ++ el :: post).
Proof.
  intros Hlink Htitle Hpre. unfold parseResults.
  unfold linkOk in Hlink. apply andb_true_iff in Hlink as [Hhttp Had].
  apply negb_true_iff in Had. unfold titled in Htitle.
  assert (orEmpty (href el) ∉ url <$> ([] : list SearchResult)) as Hout
    by apply not_elem_of_nil.
  revert Hout. generalize ([] : list SearchResult).
  generalize (∅ : gset jsstring).
  induction Hpre as [|el' pre Hne _ IH]; intros seen results Hout.
  - cbn [app eachResult].
    destruct (10 <=? length results)%nat; [done|].
    rewrite Hhttp, Had, Htitle. cbn [negb orb].
    case_bool_decide.
    + by apply eachResult_seen_stays_out.
    + apply eachResult_seen_stays_out; [|done].
      apply elem_of_union_l. by apply elem_of_singleton.
  - cbn [app eachResult]. change (pre ++ el :: post) with (pre ++ el :: post).
    destruct (10 <=? length results)%nat; [done|].
    destruct (_ || _); [by apply IH|].
    destruct (negb _); [by apply IH|].
    apply IH. rewrite fmap_app. intros Hin.
    apply elem_of_app in Hin as [Hin|Hin]; [done|].
    simpl in Hin. apply list_elem_of_singleton in Hin. by apply Hne.
Qed.

Lemma parseResults_untitled_link_lost_witness :
  js "https://a.example/"
  ∉ url <$> parseResults
      ([] ++ mkBlock (Some (js "https://a.example/")) (Some (js "  ")) None
          :: [mkBlock (Some (js "https://a.example/")) (Some (js "A")) None]).
Proof.
  apply (parseResults_untitled_link_lost []
           [mkBlock (Some (js "https://a.example/")) (Some (js "A")) None]
           (mkBlock (Some (js "https://a.example/")) (Some (js "  ")) None)).
  - reflexivity.
  - reflexivity.
  - constructor.
Defined.

End ParseMore.

(** ** Further properties of the search cache *)

Module CacheMore.

Lemma evict_stamp now s : lastSearchTs (evict now s) = lastSearchTs s.
Proof. unfold evict. by destruct (500 <? size (searchCache s))%nat. Qed.

(** The lookup both handlers make, on an entry that is there. *)
Lemma fresh_lookup key now ttl s e :
  searchCache s !! key = Some e →
  fresh key now ttl s = if now - ts e <? ttl then Some e else None.
Proof. intros H. unfold fresh. by rewrite H. Qed.

Section CaseMap.

Variable toLowerCase : jsstring → jsstring.

Lemma ddgFinish_stamp query up storedAt sweptAt s :
  lastSearchTs (ddgFinish toLowerCase query up storedAt sweptAt s).2
  = lastSearchTs s.
Proof. destruct up; simpl; [done|]. by rewrite evict_stamp. Qed.

(** X20: after a scraped-backend search that went upstream, a search
    whose query has the same normalized text is answered from the
    cache, marked [cached], with the same results and no change of
    state, as long as less than [CACHE_TTL] has passed since the
    entry was stored; from then on it goes upstream again. *)
Theorem ddg_cache_round_trip (query query' : jsstring)
    (lookedAt now sentAt storedAt sweptAt : Z) (blocks : list ResultBlock)
    (s : Server) :
  fresh (ddgCacheKey toLowerCase query) lookedAt CACHE_TTL s = None →
  sweptAt - CACHE_TTL ≤ storedAt →
  ddgCacheKey toLowerCase query' = ddgCacheKey toLowerCase query →
  let s1 := (searchDuckduckgo toLowerCase query lookedAt now sentAt storedAt
               sweptAt (DdgPage blocks) s).2 in
  ∀ lookedAt' now' sentAt' storedAt' sweptAt' up',
    (lookedAt' - storedAt < CACHE_TTL →
     searchDuckduckgo toLowerCase query' lookedAt' now' sentAt' storedAt'
       sweptAt' up' s1
     = (Results (parseResults blocks) true, s1))
    ∧ (CACHE_TTL ≤ lookedAt' - storedAt →
       searchDuckduckgo toLowerCase query' lookedAt' now' sentAt' storedAt'
         sweptAt' up' s1
       = ddgFinish toLowerCase query' up' storedAt' sweptAt'
           (stamp sentAt' s1)).
Proof.
  intros Hmiss Hswept Hkey s1 lookedAt' now' sentAt' storedAt' sweptAt' up'.
  assert (searchCache s1 !! ddgCacheKey toLowerCase query
          = Some (mkEntry (parseResults blocks) storedAt)) as Hentry.
  { subst s1. unfold searchDuckduckgo. rewrite Hmiss. unfold ddgFinish.
    simpl. apply SearchFacts.evict_keeps; [|done].
    simpl. apply lookup_insert_eq. }
  split; intros Hage; unfold searchDuckduckgo at 1; rewrite Hkey;
    rewrite (fresh_lookup _ _ _ _ _ Hentry); simpl ts.
  - by rewrite (proj2 (Z.ltb_lt _ _)) by lia.
  - by rewrite (proj2 (Z.ltb_ge _ _)) by lia.
Qed.

(** X21: a SERP-backend search that went upstream and got results is
    answered with the first ten organic entries in the provider's
    order, and a later search with the same key within
    [GOOGLE_CACHE_TTL] of the store is answered with the same list from
    the cache, with no change of state. *)
Theorem google_cache_round_trip (query query' : jsstring)
    (lookedAt storedAt status : Z) (data : SerpData) (r : Organic)
    (rs : list Organic) (s : Server) :
  fresh (googleCacheKey toLowerCase query) lookedAt GOOGLE_CACHE_TTL s = None →
  ok status = true → organic data = Some (r :: rs) →
  googleCacheKey toLowerCase query' = googleCacheKey toLowerCase query →
  let call := searchGoogle toLowerCase query lookedAt storedAt
                (SerpResponse status data) s in
  call.1 = Results (fromOrganic <$> take 10 (r :: rs)) false
  ∧ ∀ lookedAt' storedAt' up',
      lookedAt' - storedAt < GOOGLE_CACHE_TTL →
      searchGoogle toLowerCase query' lookedAt' storedAt' up' call.2
      = (Results (fromOrganic <$> take 10 (r :: rs)) true, call.2).
Proof.
  intros Hmiss Hok Hdata Hkey call.
  assert (call = (Results (fromOrganic <$> take 10 (r :: rs)) false,
                  store (googleCacheKey toLowerCase query)
                    (mkEntry (fromOrganic <$> take 10 (r :: rs)) storedAt) s))
    as ->.
  { subst call. unfold searchGoogle. rewrite Hmiss, Hok, Hdata. reflexivity. }
  split; [done|]. intros lookedAt' storedAt' up' Hage.
  unfold searchGoogle. rewrite Hkey.
  erewrite fresh_lookup; [|simpl; apply lookup_insert_eq].
  simpl ts. by rewrite (proj2 (Z.ltb_lt _ _)) by lia.
Qed.

(** X22: the sweep that follows a scraped-backend store uses
    [CACHE_TTL] for every entry: once the cache holds more than 500
    entries it also deletes a SERP-backend entry older than
    [CACHE_TTL], however far that entry is from [GOOGLE_CACHE_TTL]. *)
Theorem ddg_sweep_drops_google (query g : jsstring)
    (lookedAt now sentAt storedAt sweptAt : Z) (blocks : list ResultBlock)
    (s : Server) (e : CacheEntry) :
  fresh (ddgCacheKey toLowerCase query) lookedAt CACHE_TTL s = None →
  searchCache s !! googleCacheKey toLowerCase g = Some e →
  googleCacheKey toLowerCase g ≠ ddgCacheKey toLowerCase query →
  (500 < size (<[ddgCacheKey toLowerCase query
                 := mkEntry (parseResults blocks) storedAt]> (searchCache s)))%nat →
  ts e < sweptAt - CACHE_TTL →
  searchCache
    (searchDuckduckgo toLowerCase query lookedAt now sentAt storedAt sweptAt
       (DdgPage blocks) s).2
  !! googleCacheKey toLowerCase g = None.
Proof.
  intros Hmiss He Hne Hsize Hold. unfold searchDuckduckgo. rewrite Hmiss.
  unfold ddgFinish, evict. simpl.
  rewrite (proj2 (Nat.ltb_lt _ _)) by done. simpl.
  apply map_lookup_filter_None. right. intros e' He'.
  rewrite lookup_insert_ne in He' by done.
  rewrite He in He'. simplify_eq. simpl. lia.
Qed.

(** X24: the SERP backend's handler changes nothing but the entry
    under its own key: every other entry stays, no entry is swept, and
    the throttle's stamp is not moved. *)
Theorem searchGoogle_frame (query : jsstring) (lookedAt storedAt : Z)
    (up : SerpUpstream) (s : Server) (k : jsstring) :
  let s' := (searchGoogle toLowerCase query lookedAt storedAt up s).2 in
  lastSearchTs s' = lastSearchTs s
  ∧ (size (searchCache s) ≤ size (searchCache s'))%nat
  ∧ (k ≠ googleCacheKey toLowerCase query →
     searchCache s' !! k = searchCache s !! k).
Proof.
  intros s'.
  assert (s' = s ∨ ∃ e, s' = store (googleCacheKey toLowerCase query) e s)
    as [->|[e ->]].
  { subst s'. unfold searchGoogle.
    destruct (fresh _ _ _ _); [by left|].
    destruct up as [msg|status data]; [by left|].
    destruct (negb (ok status)); [by left|]. simpl.
    destruct (0 <? _)%nat; [right; by eexists | by left]. }
  - done.
  - simpl. split; [done|]. split.
    + destruct (searchCache s !! googleCacheKey toLowerCase query) eqn:E.
      * by rewrite map_size_insert_Some.
      * rewrite map_size_insert_None by done. lia.
    + intros Hne. by rewrite lookup_insert_ne.
Qed.

End CaseMap.

(** X23: the sweep deletes nothing while every entry is younger than
    [CACHE_TTL]: 500 is the size at which sweeping starts, not a bound
    on the cache. *)
Theorem evict_keeps_young (now : Z) (s : Server) :
  (∀ k e, searchCache s !! k = Some e → now - CACHE_TTL ≤ ts e) →
  evict now s = s.
Proof.
  intros Hyoung. unfold evict.
  destruct (500 <? size (searchCache s))%nat; [|done].
  destruct s as [cache stampTs]. simpl in *. f_equal.
  apply map_filter_id. intros k e He. simpl. apply Hyoung in He. lia.
Qed.

Lemma evict_keeps_young_witness :
  let s := mkServer
             (list_to_map
                ((fun n => ([N.of_nat n], mkEntry [] 1500000)) <$> seq 0 501))
             0 in
  (500 < size (searchCache s))%nat
  ∧ evict 2000000 s = s.
Proof.
  intros s. split.
  - apply Nat.ltb_lt. vm_compute. reflexivity.
  - apply evict_keeps_young. intros k e He.
    subst s. cbn [searchCache] in He.
    apply elem_of_list_to_map_2 in He.
    apply list_elem_of_fmap in He as (n & Heq & _).
    injection Heq as _ ->. vm_compute. discriminate.
Defined.

Lemma ddg_cache_round_trip_witness :
  let s1 := (searchDuckduckgo asciiLower (js "Rust ") 1000 1000 1001 1200 1200
               (DdgPage []) boot).2 in
  searchDuckduckgo asciiLower (js " rust") 5000 5000 5000 5000 5000
    (DdgRejected []) s1
  = (Results (parseResults []) true, s1).
Proof.
  intros s1.
  apply (ddg_cache_round_trip asciiLower (js "Rust ") (js " rust")
           1000 1000 1001 1200 1200 [] boot).
  - reflexivity.
  - vm_compute. discriminate.
  - reflexivity.
  - vm_compute. reflexivity.
Defined.

Lemma google_cache_round_trip_witness :
  let data := mkSerpData None
                (Some [mkOrganic (js "Foo") (js "https://foo.example/") None]) in
  let call := searchGoogle asciiLower (js "foo") 1000 1001
                (SerpResponse 200 data) boot in
  searchGoogle asciiLower (js "FOO") 5000 5001 (SerpRejected []) call.2
  = (Results [mkResult (js "Foo") (js "https://foo.example/") []] true,
     call.2).
Proof.
  intros data call.
  apply (google_cache_round_trip asciiLower (js "foo") (js "FOO") 1000 1001
           200 data (mkOrganic (js "Foo") (js "https://foo.example/") None)
           [] boot).
  - reflexivity.
  - reflexivity.
  - reflexivity.
  - reflexivity.
  - vm_compute. reflexivity.
Defined.

Lemma searchGoogle_frame_witness :
  let s := store (js "rust") (mkEntry [] 1000) boot in
  searchCache
    (searchGoogle asciiLower (js "foo") 1000 1001 (SerpRejected []) s).2
  !! js "rust" = searchCache s !! js "rust".
Proof.
  intros s.
  apply (searchGoogle_frame asciiLower (js "foo") 1000 1001 (SerpRejected [])
           s (js "rust")).
  discriminate.
Defined.

Lemma ddg_sweep_drops_google_witness :
  let filler : gmap jsstring CacheEntry :=
    list_to_map ((fun n => ([N.of_nat n], mkEntry [] 1500000)) <$> seq 0 501) in
  let hit := mkResult (js "Foo") (js "https://foo.example/") [] in
  let s := mkServer (<[js "g:foo" := mkEntry [hit] 1000000]> filler) 0 in
  fresh (js "g:foo") 2000000 GOOGLE_CACHE_TTL s = Some (mkEntry [hit] 1000000)
  ∧ searchCache
      (searchDuckduckgo asciiLower (js "rust") 2000000 2000000 2000000
         2000000 2000000 (DdgPage []) s).2
    !! js "g:foo" = None.
Proof.
  intros filler hit s. split; [vm_compute; reflexivity|].
  apply (ddg_sweep_drops_google asciiLower (js "rust") (js "foo")
           2000000 2000000 2000000 2000000 2000000 [] s
           (mkEntry [hit] 1000000)).
  - vm_compute. reflexivity.
  - vm_compute. reflexivity.
  - discriminate.
  - apply Nat.ltb_lt. vm_compute. reflexivity.
  - vm_compute. reflexivity.
Defined.

End CacheMore.

(** ** The throttle gate when no request arrives during a wait *)

Module SerialFacts.

Import Loop Serial.

Lemma gapsOk_snoc times x :
  gapsOk times →
  (∀ t, last times = Some t → t + MIN_GAP_MS ≤ x) →
  gapsOk (times ++ [x]).
Proof.
  induction times as [|a [|b rest] IH]; intros Hok Hlast.
  - done.
  - simpl. split; [|done]. by apply Hlast.
  - destruct Hok as [Hab Hok]. split; [done|].
    apply IH; [done|]. intros t Ht. by apply Hlast.
Qed.

Lemma inv_dispatch id q t l :
  inv l → lastSearchTs (server l) + MIN_GAP_MS ≤ t →
  delete id (sleeping l) = ∅ →
  inv (dispatch id q t l).
Proof.
  intros (Hgaps & Hlast & Hsleep) Ht Hdel. unfold inv, dispatch. simpl.
  rewrite fmap_app. simpl. split_and!.
  - apply gapsOk_snoc; [done|]. intros t' Ht'. apply Hlast in Ht'. lia.
  - intros t'. rewrite last_snoc. intros ?; simplify_eq. lia.
  - intros id' q' due. rewrite Hdel, lookup_empty. discriminate.
Qed.

Section CaseMap.

Variable toLowerCase : jsstring → jsstring.

Lemma inv_step e l l' :
  inv l → (arrives e = true → sleeping l = ∅) →
  step toLowerCase e l = Some l' → inv l'.
Proof.
  intros Hinv Hquiet. destruct e as [id q la now sentAt|id t|id up st sw];
    unfold step.
  - destruct (negb _) eqn:Eclock; [discriminate|].
    apply negb_false_iff in Eclock.
    apply andb_true_iff in Eclock as [Eclock Hsent].
    apply andb_true_iff in Eclock as [_ Hnow].
    apply Z.leb_le in Hsent, Hnow.
    case_bool_decide; [discriminate|].
    rewrite (Hquiet eq_refl) in *.
    destruct (fresh _ _ _ _).
    { intros ?; simplify_eq. destruct Hinv as (Hg & Hl & Hs).
      split_and!; simpl; done. }
    destruct (0 <? throttleWait now (server l)) eqn:Ew.
    + apply Z.ltb_lt in Ew. intros ?; simplify_eq.
      destruct Hinv as (Hg & Hl & Hs). split_and!; simpl; try done.
      intros id' q' due Hlook.
      apply lookup_insert_Some in Hlook as [[<- ?]|[_ Hlook]];
        [|by rewrite lookup_empty in Hlook].
      simplify_eq. split.
      * unfold throttleWait in *. lia.
      * by rewrite delete_insert_eq, delete_empty.
    + apply Z.ltb_ge in Ew. intros ?; simplify_eq.
      apply inv_dispatch; [done| |].
      * unfold throttleWait in Ew. lia.
      * destruct Hinv as (_ & _ & Hs). rewrite (Hquiet eq_refl).
        apply delete_empty.
  - destruct (sleeping l !! id) as [[q due]|] eqn:Es; [|discriminate].
    destruct (_ && _) eqn:Edue; [|discriminate].
    apply andb_true_iff in Edue as [Hdue _]. apply Z.leb_le in Hdue.
    intros ?; simplify_eq.
    destruct Hinv as (Hg & Hl & Hs). destruct (Hs _ _ _ Es) as [Hd Hdel].
    apply inv_dispatch; [done | lia | done].
  - destruct (fetching l !! id) as [q|]; [|discriminate].
    destruct (_ && _); [|discriminate].
    pose proof (CacheMore.ddgFinish_stamp toLowerCase q up st sw (server l))
      as Hstamp.
    destruct (ddgFinish toLowerCase q up st sw (server l)) as [reply s'].
    simpl in Hstamp. intros ?; simplify_eq.
    destruct Hinv as (Hg & Hl & Hs). unfold inv. simpl. rewrite Hstamp.
    done.
Qed.

Lemma inv_runSerial es l l' :
  inv l → runSerial toLowerCase es l = Some l' → inv l'.
Proof.
  revert l. induction es as [|e es IH]; intros l Hinv; simpl.
  { intros ?; by simplify_eq. }
  destruct (arrives e && negb (bool_decide (sleeping l = ∅))) eqn:Eg;
    [discriminate|].
  destruct (step toLowerCase e l) as [l1|] eqn:Es; [|discriminate].
  simpl. apply IH. eapply inv_step; [done| |done].
  intros Ha. rewrite Ha in Eg. simpl in Eg.
  apply negb_false_iff in Eg. by apply bool_decide_eq_true in Eg.
Qed.

(** X25: in a schedule where no search arrives while another one is
    waiting on the throttle's timer, any two successive upstream
    requests are dispatched at least [MIN_GAP_MS] apart, however the
    fetches themselves overlap. *)
Theorem serial_dispatch_gaps (es : list Event) (s : Server) (now : Z)
    (l : State) :
  runSerial toLowerCase es (init s now) = Some l →
  gapsOk ((sent l).*2).
Proof.
  intros Hrun. eapply inv_runSerial in Hrun as (Hg & _); [done|].
  unfold inv, init. simpl. split_and!; [done | discriminate |].
  intros id q due. rewrite lookup_empty. discriminate.
Qed.

End CaseMap.

Lemma serial_dispatch_gaps_witness :
  let t := 1700000000000 in
  let schedule :=
    [Arrive 0 (js "alpha") t t t;
     Arrive 1 (js "beta") (t + 100) (t + 100) (t + 100);
     Wake 1 (t + 1500);
     Settle 0 (DdgPage []) (t + 1600) (t + 1600);
     Arrive 2 (js "gamma") (t + 1700) (t + 1700) (t + 1700);
     Wake 2 (t + 3000)] in
  ∃ l, runSerial asciiLower schedule (init boot t) = Some l
       ∧ (sent l).*2 = [t; t + 1500; t + 3000]
       ∧ gapsOk ((sent l).*2).
Proof.
  intros t schedule.
  destruct (runSerial asciiLower schedule (init boot t)) as [l|] eqn:E.
  - exists l. split; [reflexivity|]. split.
    + vm_compute in E. by simplify_eq.
    + apply (serial_dispatch_gaps asciiLower schedule boot t l E).
  - vm_compute in E. discriminate.
Defined.

End SerialFacts.
